(** * Aiyagari (1994) teaching notebook: helper routines

    Shallow embedding of the code cells of [ta_sessions/5_aiyagari.ipynb]
    ([rouwenhorst], [factor_prices], [aggregate_kl], [cash_in_hand],
    [solve_pfi]) and the properties the specification states about them.

    Number model.  Python floats and NumPy [float64] values are modelled by
    real numbers: rounding and overflow are not modelled.  What IS modelled
    is the difference between the two arithmetics the notebook mixes:
    - Python float arithmetic raises ([ZeroDivisionError]) on a division by
      zero and on [0.0 ** negative], and yields a complex number for a
      negative base raised to a non-integral power;
    - NumPy arithmetic never raises: it yields [nan] or [inf], which the
      type [npfloat] carries next to the finite values.

    Recursion.  [compute_P] recurses on a Python integer that may never
    reach the base case; it is modelled with a recursion-depth budget
    ([fuel]) and returns [None] when the budget is exhausted. *)

From Stdlib Require Import Reals Lra Lia List ZArith String Bool.
Import ListNotations.

Open Scope R_scope.

(** ** Vectors and matrices (NumPy arrays of floats) *)

Definition vector := list R.
Definition matrix := list (list R).

(** [np.zeros((n, m))] *)
Definition zeros (n m : nat) : matrix := repeat (repeat 0 m) n.

(** [row[0:len q] += q] : element-wise addition onto a prefix. *)
Fixpoint add_prefix (row q : vector) : vector :=
  match row, q with
  | x :: row', y :: q' => (x + y) :: add_prefix row' q'
  | _, _ => row
  end.

(** [row[c0 : c0 + len q] += q] *)
Fixpoint add_row (c0 : nat) (row q : vector) : vector :=
  match c0, row with
  | O, _ => add_prefix row q
  | S c, x :: row' => x :: add_row c row' q
  | S _, [] => []
  end.

(** [M[0:len Q, c0 : c0 + w] += Q] *)
Fixpoint add_rows (c0 : nat) (M Q : matrix) : matrix :=
  match M, Q with
  | row :: M', q :: Q' => add_row c0 row q :: add_rows c0 M' Q'
  | _, _ => M
  end.

(** [M[r0 : r0 + h, c0 : c0 + w] += Q] for a block [Q] of shape [(h, w)]. *)
Fixpoint add_block (r0 c0 : nat) (M Q : matrix) : matrix :=
  match r0, M with
  | O, _ => add_rows c0 M Q
  | S r, row :: M' => row :: add_block r c0 M' Q
  | S _, [] => []
  end.

(** [x * M] for a scalar [x] *)
Definition mscale (x : R) (M : matrix) : matrix := map (map (Rmult x)) M.

(** [u + v] for two rows of the same length *)
Fixpoint vadd (u v : vector) : vector :=
  match u, v with
  | x :: u', y :: v' => (x + y) :: vadd u' v'
  | _, _ => []
  end.

(** [M1 + M2] for two arrays of the same shape *)
Fixpoint madd (M1 M2 : matrix) : matrix :=
  match M1, M2 with
  | u :: M1', v :: M2' => vadd u v :: madd M1' M2'
  | _, _ => []
  end.

Definition halve (row : vector) : vector := map (fun x => x / 2) row.

(** Rows of [M[:-1]] halved, the last row untouched. *)
Fixpoint halve_but_last (M : matrix) : matrix :=
  match M with
  | [] => []
  | [row] => [row]
  | row :: M' => halve row :: halve_but_last M'
  end.

(** [P[1:-1, :] /= 2] : every row but the first and the last is halved. *)
Definition halve_interior (M : matrix) : matrix :=
  match M with
  | [] => []
  | row :: M' => row :: halve_but_last M'
  end.

(** ** [rouwenhorst]: the nested [compute_P]

    In the recursive branch [N <> 2] and the recursive call has returned, so
    [N - 1 >= 2]: every slice bound [N-1], [1], [N] is a non-negative index
    and each of the four slices has the shape [(N-1, N-1)] of [Q]. *)
Fixpoint compute_P (fuel : nat) (p : R) (N : Z) : option matrix :=
  match fuel with
  | O => None
  | S fuel' =>
      if (N =? 2)%Z then
        Some [[p; 1 - p];
              [1 - p; p]]
      else
        match compute_P fuel' p (N - 1) with
        | None => None
        | Some Q =>
            let n := Z.to_nat N in
            let A := zeros n n in
            let B := zeros n n in
            let A := add_block 0 0 A Q in
            let A := add_block 1 1 A Q in
            let B := add_block 0 1 B Q in
            let B := add_block 1 0 B Q in
            let P := madd (mscale p A) (mscale (1 - p) B) in
            Some (halve_interior P)
        end
  end.

(** ** NumPy scalars

    A [float64] is a real number, an infinity or [nan].  Signed zeros are
    not represented; the only zero divisor the notebook produces is the
    square root [np.sqrt(0.0) = +0.0], so [x / 0] takes the sign of [x]. *)
Inductive npfloat : Type :=
| Finite (x : R)
| PInf
| NInf
| NaN.

Definition is_finite (a : npfloat) : bool :=
  match a with
  | Finite _ => true
  | _ => false
  end.

Definition inf_of_sign (x : R) : npfloat :=
  if Rlt_dec 0 x then PInf else if Rlt_dec x 0 then NInf else NaN.

(** [np.sqrt(x)] on a Python float: [nan] (and a warning) below zero. *)
Definition np_sqrt (x : R) : npfloat :=
  if Rlt_dec x 0 then NaN else Finite (sqrt x).

Definition np_neg (a : npfloat) : npfloat :=
  match a with
  | Finite x => Finite (- x)
  | PInf => NInf
  | NInf => PInf
  | NaN => NaN
  end.

Definition np_add (a b : npfloat) : npfloat :=
  match a, b with
  | NaN, _ | _, NaN => NaN
  | Finite x, Finite y => Finite (x + y)
  | PInf, NInf | NInf, PInf => NaN
  | PInf, _ | _, PInf => PInf
  | NInf, _ | _, NInf => NInf
  end.

Definition np_sub (a b : npfloat) : npfloat := np_add a (np_neg b).

Definition np_mul (a b : npfloat) : npfloat :=
  match a, b with
  | NaN, _ | _, NaN => NaN
  | Finite x, Finite y => Finite (x * y)
  | Finite x, PInf | PInf, Finite x => inf_of_sign x
  | Finite x, NInf | NInf, Finite x => inf_of_sign (- x)
  | PInf, PInf | NInf, NInf => PInf
  | PInf, NInf | NInf, PInf => NInf
  end.

Definition np_div (a b : npfloat) : npfloat :=
  match a, b with
  | NaN, _ | _, NaN => NaN
  | Finite x, Finite y =>
      if Req_dec_T y 0 then inf_of_sign x else Finite (x / y)
  | Finite _, (PInf | NInf) => Finite 0
  | PInf, Finite y => if Rlt_dec y 0 then NInf else PInf
  | NInf, Finite y => if Rlt_dec y 0 then PInf else NInf
  | (PInf | NInf), (PInf | NInf) => NaN
  end.

(** [np.linspace(start, stop, num)] with the default [endpoint=True]:
    [num] samples [start + i * step], [step = (stop - start) / (num - 1)],
    the last one overwritten with [stop]. *)
Definition np_linspace (start stop : npfloat) (num : nat) : list npfloat :=
  match num with
  | O => []
  | S O => [start]
  | S div =>
      let step := np_div (np_sub stop start) (Finite (INR div)) in
      map (fun i => np_add (np_mul (Finite (INR i)) step) start) (seq 0 div)
        ++ [stop]
  end.

(** ** [rouwenhorst]

    [N] is a Python integer.  When [compute_P] has returned, [N >= 2], so
    the sample count handed to [np.linspace] is a positive integer. *)
Definition rouwenhorst (fuel : nat) (N : Z) (mu rho sigma : R)
  : option (list npfloat * matrix) :=
  let p := (1 + rho) / 2 in
  match compute_P fuel p N with
  | None => None
  | Some P =>
      let f := np_mul (np_sqrt (IZR (N - 1)))
                      (np_div (Finite sigma) (np_sqrt (1 - rho ^ 2))) in
      let s := map (fun x => np_add x (Finite mu))
                   (np_linspace (np_neg f) f (Z.to_nat N)) in
      Some (s, P)
  end.

(** ** Python exceptions and results

    [InvalidParameter], [NonConvergence] and [NumericalInstability] are the
    error kinds of the specification; the others are the built-in
    exceptions the code cells can raise. *)
Inductive exn : Type :=
| ZeroDivisionError
| KeyError (key : string)
| NameError (name : string)
| UnboundLocalError (name : string)
| TypeError
| ValueError
| InvalidParameter
| NonConvergence
| NumericalInstability.

Inductive outcome (A : Type) : Type :=
| Return (a : A)
| Raise (e : exn).
Arguments Return {A} a.
Arguments Raise {A} e.

Definition bind {A B : Type} (m : outcome A) (k : A -> outcome B) : outcome B :=
  match m with
  | Return a => k a
  | Raise e => Raise e
  end.

Notation "x <- m ;; k" := (bind m (fun x => k))
  (at level 61, m at next level, right associativity).

(** A Python number produced by float arithmetic: a float or a complex. *)
Inductive pynum : Type :=
| PyFloat (x : R)
| PyComplex (re im : R).

(** [x / y] when both operands are Python numbers ([int] or [float]).
    When one of them is a NumPy scalar the division is NumPy's, [np_div]. *)
Definition py_div (x y : R) : outcome R :=
  if Req_dec_T y 0 then Raise ZeroDivisionError else Return (x / y).

(** [x ** y] for a Python float base (CPython's [float_pow]): [x ** 0.0] is [1.0];
    [0.0 ** y] raises for [y < 0]; a negative base gives a float for an
    integral exponent and the principal complex power otherwise. *)
Definition py_pow (x y : R) : outcome pynum :=
  if Req_dec_T y 0 then Return (PyFloat 1)
  else if Req_dec_T x 0 then
    if Rlt_dec y 0 then Raise ZeroDivisionError else Return (PyFloat 0)
  else if Rlt_dec x 0 then
    if Req_dec_T y (IZR (Int_part y))
    then Return (PyFloat (powerRZ x (Int_part y)))
    else Return (PyComplex (Rpower (- x) y * cos (PI * y))
                           (Rpower (- x) y * sin (PI * y)))
  else Return (PyFloat (Rpower x y)).

(** [a * z] for a Python float [a] *)
Definition py_scale (a : R) (z : pynum) : pynum :=
  match z with
  | PyFloat x => PyFloat (a * x)
  | PyComplex re im => PyComplex (a * re) (a * im)
  end.

(** [x ** y] for a NumPy scalar base and a Python float exponent: the
    C library's [pow], which never raises.  [x ** 0.0] is [1.0] even for
    [nan]; a zero base gives [inf] for [y < 0]; a negative finite base
    gives [nan] for a non-integral exponent; [inf ** y] is [0.0] for
    [y < 0] and [inf] for [y > 0]; [(-inf) ** y] is [0.0] for [y < 0],
    [-inf] for an odd integer [y > 0] and [inf] for any other [y > 0]. *)
Definition np_pow (x : npfloat) (y : R) : npfloat :=
  if Req_dec_T y 0 then Finite 1
  else
    match x with
    | NaN => NaN
    | Finite v =>
        if Req_dec_T v 0 then
          if Rlt_dec y 0 then PInf else Finite 0
        else if Rlt_dec v 0 then
          if Req_dec_T y (IZR (Int_part y))
          then Finite (powerRZ v (Int_part y))
          else NaN
        else Finite (Rpower v y)
    | PInf => if Rlt_dec y 0 then Finite 0 else PInf
    | NInf =>
        if Rlt_dec y 0 then Finite 0
        else if Req_dec_T y (IZR (Int_part y))
             then if Z.odd (Int_part y) then NInf else PInf
             else PInf
    end.

(** ** The [param] dictionary *)
Definition params := list (string * R).

Fixpoint getitem (param : params) (key : string) : outcome R :=
  match param with
  | [] => Raise (KeyError key)
  | (k, v) :: rest => if String.eqb k key then Return v else getitem rest key
  end.

(** The notebook's parametrisation. *)
Definition param : params :=
  [("alpha", 0.5); ("beta", 0.96); ("gamma", 1.0); ("phi", 1.0);
   ("mu", 0.0); ("rho", 0.53); ("sigma", 0.296); ("kMin", 0.0);
   ("kMax", 40.0); ("kNum", 100); ("lNum", 9); ("kappa", 0.2)]%string.

(** ** [factor_prices]

    Python dispatches [/] and [**] on the type of the operands, so the
    one source function has two behaviours.  [factor_prices] is the call
    on Python numbers [K] and [L] (a literal guess for the capital stock);
    [factor_prices_np] below is the call in which [K] or [L] is a NumPy
    scalar, such as the aggregates [aggregate_kl] returns.  The two agree
    wherever the ratio [K / L] is a positive real. *)
Definition factor_prices (K L : R) (param : params) : outcome (pynum * pynum) :=
  a <- getitem param "alpha" ;;
  q <- py_div K L ;;
  x <- py_pow q (a - 1) ;;
  let r := py_scale a x in
  q' <- py_div K L ;;
  y <- py_pow q' a ;;
  let w := py_scale (1 - a) y in
  Return (r, w).

Definition factor_prices_np (K L : npfloat) (param : params)
  : outcome (npfloat * npfloat) :=
  a <- getitem param "alpha" ;;
  let r := np_mul (Finite a) (np_pow (np_div K L) (a - 1)) in
  let w := np_mul (Finite (1 - a)) (np_pow (np_div K L) a) in
  Return (r, w).

(** ** [aggregate_kl]

    [u @ v] on two one-dimensional arrays is their inner product; NumPy
    raises [ValueError] when the lengths differ. *)
Fixpoint dot (u v : vector) : R :=
  match u, v with
  | x :: u', y :: v' => x * y + dot u' v'
  | _, _ => 0
  end.

Definition matmul (u v : vector) : outcome R :=
  if Nat.eqb (List.length u) (List.length v) then Return (dot u v) else Raise ValueError.

Definition aggregate_kl (states dist : vector) (param : params)
  : outcome (R * R) :=
  K <- matmul dist states ;;
  L <- matmul dist states ;;
  Return (K, L).

(** ** [cash_in_hand] *)
Definition cash_in_hand (k l r w : R) : R := w * l + (1 + r) * k.

(** A call of [cash_in_hand] with positional arguments: the function takes
    exactly four, any other count is a [TypeError]. *)
Definition call_cash_in_hand (args : list R) : outcome R :=
  match args with
  | [k; l; r; w] => Return (cash_in_hand k l r w)
  | _ => Raise TypeError
  end.

(** ** [solve_pfi]

    The function reads three module-level names that no cell of the
    notebook binds: [state], [euler] and [cs].  They are looked up when the
    statement that mentions them runs, so the model takes the module
    namespace as an argument, each of the three names bound or not. *)
Record globals : Type := {
  g_state : option R;
  g_euler : option (R -> params -> outcome vector);
  g_cs : option vector
}.

(** The namespace the notebook's cells build. *)
Definition notebook_globals : globals :=
  {| g_state := None; g_euler := None; g_cs := None |}.

Definition load_global {A : Type} (binding : option A) (name : string)
  : outcome A :=
  match binding with
  | Some v => Return v
  | None => Raise (NameError name)
  end.

(** A local variable read before any assignment to it. *)
Definition load_local {A : Type} (binding : option A) (name : string)
  : outcome A :=
  match binding with
  | Some v => Return v
  | None => Raise (UnboundLocalError name)
  end.

(** Element-wise arithmetic on one-dimensional arrays under NumPy's
    broadcasting: an array of length one is stretched over the other
    array, two arrays of one length are paired up, and any other pair of
    lengths is a [ValueError]. *)
Fixpoint zip_with (f : R -> R -> R) (u v : vector) : vector :=
  match u, v with
  | x :: u', y :: v' => f x y :: zip_with f u' v'
  | _, _ => []
  end.

Definition broadcast (f : R -> R -> R) (u v : vector) : outcome vector :=
  match u, v with
  | [x], _ => Return (map (fun y => f x y) v)
  | _, [y] => Return (map (fun x => f x y) u)
  | _, _ =>
      if Nat.eqb (List.length u) (List.length v)
      then Return (zip_with f u v) else Raise ValueError
  end.

Definition vsub (u v : vector) : outcome vector := broadcast Rminus u v.

Definition vplus (u v : vector) : outcome vector := broadcast Rplus u v.

Definition vscale (x : R) (v : vector) : vector := map (Rmult x) v.

(** [la.norm(v)] : the Euclidean norm. *)
Definition norm (v : vector) : R := sqrt (dot v v).

(** The default of the keyword argument [tol]. *)
Definition default_tol : R := 1e-6.

(** One pass through the body of the [while] statement: the new [diff] and
    the new [c1]. *)
Definition pfi_body (G : globals) (cash : R) (param : params)
           (c1 : option vector) : outcome (R * vector) :=
  euler <- load_global (g_euler G) "euler" ;;
  c0 <- euler cash param ;;
  c1v <- load_local c1 "c1" ;;
  d <- vsub c1v c0 ;;
  let diff := norm d in
  kappa <- getitem param "kappa" ;;
  cs <- load_global (g_cs G) "cs" ;;
  kappa' <- getitem param "kappa" ;;
  c1' <- vplus (vscale kappa cs) (vscale (1 - kappa') c0) ;;
  Return (diff, c1').

(** [while diff > tol: ...], one unit of [fuel] per evaluation of the
    condition; after the loop the function falls off its end and returns
    [None] (here [tt]). *)
Fixpoint pfi_loop (fuel : nat) (G : globals) (cash : R) (param : params)
         (tol diff : R) (c1 : option vector) : option (outcome unit) :=
  match fuel with
  | O => None
  | S fuel' =>
      if Rlt_dec tol diff then
        match pfi_body G cash param c1 with
        | Raise e => Some (Raise e)
        | Return (diff', c1') =>
            pfi_loop fuel' G cash param tol diff' (Some c1')
        end
      else Some (Return tt)
  end.

Definition solve_pfi (fuel : nat) (G : globals) (r w : R) (param : params)
           (tol : R) : option (outcome unit) :=
  match (state <- load_global (g_state G) "state" ;;
         call_cash_in_hand [r; w; state]) with
  | Raise e => Some (Raise e)
  | Return cash =>
      let diff := 1.0 in
      pfi_loop fuel G cash param tol diff None
  end.

(** ** Specification vocabulary *)

Definition vsum (v : vector) : R := fold_right Rplus 0 v.

Definition nonneg (v : vector) : Prop := Forall (fun x => 0 <= x) v.

Definition mnonneg (M : matrix) : Prop := Forall nonneg M.

(** Every row of [M] has [m] entries. *)
Definition rows_of_length (m : nat) (M : matrix) : Prop :=
  Forall (fun row => List.length row = m) M.

(** [M] has [n] rows and every row has [m] entries. *)
Definition shape (n m : nat) (M : matrix) : Prop :=
  List.length M = n /\ rows_of_length m M.

(** Every row sums to one and every entry is a probability. *)
Definition row_stochastic (M : matrix) : Prop :=
  Forall (fun row => vsum row = 1 /\ Forall (fun x => 0 <= x <= 1) row) M.

(** What the recursion maintains: an [n]-by-[n] array of non-negative
    entries whose rows sum to one. *)
Definition stochastic (n : nat) (M : matrix) : Prop :=
  shape n n M /\ mnonneg M /\ Forall (fun row => vsum row = 1) M.

(** The recursion depth [compute_P] needs for [N >= 2]: one frame per
    size from [N] down to [2]. *)
Definition depth (N : Z) : nat := Z.to_nat (N - 1).

(** The half-width [f] of the state grid as the specification writes it. *)
Definition spread (N : Z) (rho sigma : R) : R :=
  sqrt (IZR (N - 1)) * sigma / sqrt (1 - rho ^ 2).

(** [s] is [n] finite points evenly spaced over [[lo, hi]]: the point of
    index [i] is [lo + i * (hi - lo) / (n - 1)]. *)
Definition evenly_spaced (lo hi : R) (n : nat) (s : list npfloat) : Prop :=
  s = map (fun i => Finite (lo + INR i * ((hi - lo) / INR (n - 1))))
          (seq 0 n).

(** [M[i][j]], zero outside the array. *)
Definition entry (M : matrix) (i j : nat) : R := nth j (nth i M []) 0.

(** The block [Q] seen from the offset [(di, dj)] at which it was added:
    [Q[i - di][j - dj]], zero above or left of the block. *)
Definition shifted (di dj : nat) (Q : matrix) (i j : nat) : R :=
  if (di <=? i)%nat && (dj <=? j)%nat then entry Q (i - di) (j - dj) else 0.

(** The factor [P[1:-1, :] /= 2] puts on row [i] of an array of [n] rows. *)
Definition row_weight (n i : nat) : R :=
  if (1 <=? i)%nat && (i + 1 <? n)%nat then / 2 else 1.

(** [M[i][j] = M[n-1-i][n-1-j]] on an [n]-by-[n] array. *)
Definition centrosymmetric (n : nat) (M : matrix) : Prop :=
  forall i j, (i < n)%nat -> (j < n)%nat ->
              entry M i j = entry M (n - 1 - i) (n - 1 - j).

(** The firm's technology [Y = K^alpha L^(1-alpha)] of the notebook. *)
Definition production (K L a : R) : R := Rpower K a * Rpower L (1 - a).

(** A probability mass function over the grid. *)
Definition distribution (d : vector) : Prop := nonneg d /\ vsum d = 1.

(** * Lemmas on rows *)

Section Rows.

Lemma add_prefix_length (row q : vector) :
  List.length (add_prefix row q) = List.length row.
Proof.
  revert q; induction row as [|x row IH]; intros [|y q]; simpl; auto.
Qed.

Lemma add_row_length (c0 : nat) (row q : vector) :
  List.length (add_row c0 row q) = List.length row.
Proof.
  revert row; induction c0 as [|c IH]; intros row; simpl.
  - apply add_prefix_length.
  - destruct row; simpl; auto.
Qed.

Lemma add_prefix_sum (row q : vector) :
  (List.length q <= List.length row)%nat ->
  vsum (add_prefix row q) = vsum row + vsum q.
Proof.
  revert q; induction row as [|x row IH]; intros [|y q] Hlen; simpl in *;
    try lra; try lia.
  rewrite IH by lia. lra.
Qed.

Lemma add_row_sum (c0 : nat) (row q : vector) :
  (c0 + List.length q <= List.length row)%nat ->
  vsum (add_row c0 row q) = vsum row + vsum q.
Proof.
  revert row; induction c0 as [|c IH]; intros row Hlen; simpl in *.
  - now apply add_prefix_sum.
  - destruct row as [|x row]; simpl in *; [lia|].
    rewrite IH by lia. lra.
Qed.

Lemma add_prefix_nonneg (row q : vector) :
  nonneg row -> nonneg q -> nonneg (add_prefix row q).
Proof.
  unfold nonneg. intros Hr; revert q.
  induction Hr as [|x row Hx Hr IH]; intros q Hq; simpl; [constructor|].
  destruct Hq as [|y q Hy Hq]; constructor; auto. lra.
Qed.

Lemma add_row_nonneg (c0 : nat) (row q : vector) :
  nonneg row -> nonneg q -> nonneg (add_row c0 row q).
Proof.
  revert row; induction c0 as [|c IH]; intros row Hr Hq; simpl.
  - now apply add_prefix_nonneg.
  - destruct Hr; constructor; auto. now apply IH.
Qed.

Lemma vadd_length (u v : vector) :
  List.length u = List.length v -> List.length (vadd u v) = List.length u.
Proof.
  revert v; induction u as [|x u IH]; intros [|y v] H; simpl in *;
    try discriminate; auto.
Qed.

Lemma vadd_sum (u v : vector) :
  List.length u = List.length v -> vsum (vadd u v) = vsum u + vsum v.
Proof.
  revert v; induction u as [|x u IH]; intros [|y v] H; simpl in *;
    try discriminate; try lra.
  rewrite IH by lia. lra.
Qed.

Lemma vadd_nonneg (u v : vector) :
  nonneg u -> nonneg v -> nonneg (vadd u v).
Proof.
  unfold nonneg. intros Hu; revert v.
  induction Hu as [|x u Hx Hu IH]; intros v Hv; simpl; [constructor|].
  destruct Hv as [|y v Hy Hv]; constructor; auto. lra.
Qed.

Lemma scale_sum (x : R) (v : vector) : vsum (map (Rmult x) v) = x * vsum v.
Proof. induction v as [|y v IH]; simpl; [lra|]. rewrite IH. lra. Qed.

Lemma scale_nonneg (x : R) (v : vector) :
  0 <= x -> nonneg v -> nonneg (map (Rmult x) v).
Proof.
  unfold nonneg. intros Hx Hv. induction Hv; simpl; constructor; auto.
  now apply Rmult_le_pos.
Qed.

Lemma halve_sum (v : vector) : vsum (halve v) = vsum v / 2.
Proof. induction v as [|y v IH]; simpl; [lra|]. rewrite IH. lra. Qed.

Lemma halve_nonneg (v : vector) : nonneg v -> nonneg (halve v).
Proof.
  unfold nonneg, halve. intros Hv. induction Hv; simpl; constructor; auto.
  lra.
Qed.

Lemma halve_length (v : vector) : List.length (halve v) = List.length v.
Proof. apply length_map. Qed.

(** Non-negative entries that sum to one are probabilities. *)
Lemma nonneg_sum_le (v : vector) :
  nonneg v -> Forall (fun x => 0 <= x <= vsum v) v /\ 0 <= vsum v.
Proof.
  unfold nonneg. induction 1 as [|x v Hx Hv [IH1 IH2]]; simpl.
  - split; [constructor | lra].
  - split; [|lra]. constructor; [lra|].
    eapply Forall_impl; [|exact IH1]. simpl. intros a Ha. lra.
Qed.

Lemma repeat_zero_sum (m : nat) : vsum (repeat 0 m) = 0.
Proof. induction m; simpl; lra. Qed.

Lemma repeat_zero_nonneg (m : nat) : nonneg (repeat 0 m).
Proof. unfold nonneg. induction m; simpl; constructor; auto. lra. Qed.

End Rows.

(** * Lemmas on arrays *)

Section Arrays.

Lemma zeros_rows (n m : nat) : rows_of_length m (zeros n m).
Proof.
  unfold rows_of_length in *.
  unfold zeros. induction n; simpl; constructor; auto. apply repeat_length.
Qed.

Lemma zeros_length (n m : nat) : List.length (zeros n m) = n.
Proof. apply repeat_length. Qed.

Lemma zeros_sums (n m : nat) : map vsum (zeros n m) = repeat 0 n.
Proof.
  unfold zeros. induction n; simpl; auto.
  now rewrite repeat_zero_sum, IHn.
Qed.

Lemma zeros_nonneg (n m : nat) : mnonneg (zeros n m).
Proof.
  unfold zeros, mnonneg. induction n; simpl; constructor; auto.
  apply repeat_zero_nonneg.
Qed.

Lemma add_rows_length (c0 : nat) (M Q : matrix) :
  List.length (add_rows c0 M Q) = List.length M.
Proof.
  revert Q; induction M as [|row M IH]; intros [|q Q]; simpl; auto.
Qed.

Lemma add_block_length (r0 c0 : nat) (M Q : matrix) :
  List.length (add_block r0 c0 M Q) = List.length M.
Proof.
  revert M; induction r0 as [|r IH]; intros M; simpl.
  - apply add_rows_length.
  - destruct M; simpl; auto.
Qed.

Lemma add_rows_rows (c0 m : nat) (M Q : matrix) :
  rows_of_length m M -> rows_of_length m (add_rows c0 M Q).
Proof.
  unfold rows_of_length in *.
  intros HM; revert Q.
  induction HM as [|row M Hrow HM IH]; intros [|q Q]; simpl;
    constructor; auto.
  now rewrite add_row_length.
Qed.

Lemma add_block_rows (r0 c0 m : nat) (M Q : matrix) :
  rows_of_length m M -> rows_of_length m (add_block r0 c0 M Q).
Proof.
  unfold rows_of_length in *.
  revert M; induction r0 as [|r IH]; intros M HM; simpl.
  - now apply add_rows_rows.
  - destruct HM; constructor; auto.
Qed.

Lemma add_rows_nonneg (c0 : nat) (M Q : matrix) :
  mnonneg M -> mnonneg Q -> mnonneg (add_rows c0 M Q).
Proof.
  unfold mnonneg. intros HM; revert Q.
  induction HM as [|row M Hrow HM IH]; intros Q HQ; simpl; [constructor|].
  destruct HQ as [|q Q Hq HQ]; constructor; auto.
  now apply add_row_nonneg.
Qed.

Lemma add_block_nonneg (r0 c0 : nat) (M Q : matrix) :
  mnonneg M -> mnonneg Q -> mnonneg (add_block r0 c0 M Q).
Proof.
  revert M; induction r0 as [|r IH]; intros M HM HQ; simpl.
  - now apply add_rows_nonneg.
  - destruct HM; constructor; auto. now apply IH.
Qed.

(** The row sums of [M[r0:, c0:] += Q] are the row sums of [M] with the
    row sums of [Q] added from row [r0] on. *)
Lemma add_rows_sums (c0 m w : nat) (M Q : matrix) :
  rows_of_length m M -> rows_of_length w Q -> (c0 + w <= m)%nat ->
  map vsum (add_rows c0 M Q) = add_prefix (map vsum M) (map vsum Q).
Proof.
  unfold rows_of_length in *.
  intros HM; revert Q.
  induction HM as [|row M Hrow HM IH]; intros Q HQ Hfit; simpl; auto.
  destruct HQ as [|q Q Hq HQ]; simpl; auto.
  rewrite IH by auto. rewrite add_row_sum by lia. reflexivity.
Qed.

Lemma add_block_sums (r0 c0 m w : nat) (M Q : matrix) :
  rows_of_length m M -> rows_of_length w Q -> (c0 + w <= m)%nat ->
  map vsum (add_block r0 c0 M Q) = add_row r0 (map vsum M) (map vsum Q).
Proof.
  unfold rows_of_length in *.
  revert M; induction r0 as [|r IH]; intros M HM HQ Hfit; simpl.
  - eapply add_rows_sums; eauto.
  - destruct HM; simpl; auto. f_equal. now apply IH.
Qed.

Lemma mscale_length (x : R) (M : matrix) :
  List.length (mscale x M) = List.length M.
Proof. apply length_map. Qed.

Lemma mscale_rows (x : R) (m : nat) (M : matrix) :
  rows_of_length m M -> rows_of_length m (mscale x M).
Proof.
  unfold rows_of_length in *.
  unfold mscale. induction 1; simpl; constructor; auto.
  now rewrite length_map.
Qed.

Lemma mscale_sums (x : R) (M : matrix) :
  map vsum (mscale x M) = map (Rmult x) (map vsum M).
Proof.
  unfold mscale. induction M; simpl; auto. now rewrite scale_sum, IHM.
Qed.

Lemma mscale_nonneg (x : R) (M : matrix) :
  0 <= x -> mnonneg M -> mnonneg (mscale x M).
Proof.
  unfold mscale, mnonneg. intros Hx HM.
  induction HM; simpl; constructor; auto. now apply scale_nonneg.
Qed.

Lemma madd_length (M1 M2 : matrix) :
  List.length M1 = List.length M2 ->
  List.length (madd M1 M2) = List.length M1.
Proof.
  revert M2; induction M1 as [|u M1 IH]; intros [|v M2] H; simpl in *;
    try discriminate; auto.
Qed.

Lemma madd_rows (m : nat) (M1 M2 : matrix) :
  rows_of_length m M1 -> rows_of_length m M2 ->
  rows_of_length m (madd M1 M2).
Proof.
  unfold rows_of_length in *.
  intros H1; revert M2.
  induction H1 as [|u M1 Hu H1 IH]; intros M2 H2; simpl; [constructor|].
  destruct H2 as [|v M2 Hv H2]; constructor; auto.
  rewrite vadd_length; congruence.
Qed.

Lemma madd_sums (m : nat) (M1 M2 : matrix) :
  rows_of_length m M1 -> rows_of_length m M2 ->
  map vsum (madd M1 M2) = vadd (map vsum M1) (map vsum M2).
Proof.
  unfold rows_of_length in *.
  intros H1; revert M2.
  induction H1 as [|u M1 Hu H1 IH]; intros M2 H2; simpl; auto.
  destruct H2 as [|v M2 Hv H2]; simpl; auto.
  rewrite IH by auto. rewrite vadd_sum by congruence. reflexivity.
Qed.

Lemma madd_nonneg (M1 M2 : matrix) :
  mnonneg M1 -> mnonneg M2 -> mnonneg (madd M1 M2).
Proof.
  unfold mnonneg. intros H1; revert M2.
  induction H1 as [|u M1 Hu H1 IH]; intros M2 H2; simpl; [constructor|].
  destruct H2 as [|v M2 Hv H2]; constructor; auto.
  now apply vadd_nonneg.
Qed.

Lemma halve_but_last_length (M : matrix) :
  List.length (halve_but_last M) = List.length M.
Proof.
  induction M as [|row M IH]; simpl; auto.
  destruct M; simpl in *; auto.
Qed.

Lemma halve_interior_length (M : matrix) :
  List.length (halve_interior M) = List.length M.
Proof. destruct M; simpl; auto. now rewrite halve_but_last_length. Qed.

(** Any property of rows that halving a row keeps is kept by
    [P[1:-1, :] /= 2]. *)
Lemma halve_but_last_Forall (Pr : vector -> Prop) (M : matrix) :
  (forall row, Pr row -> Pr (halve row)) ->
  Forall Pr M -> Forall Pr (halve_but_last M).
Proof.
  intros Hh HM. induction HM as [|row M Hrow HM IH]; simpl; auto.
  destruct M; constructor; auto.
Qed.

Lemma halve_interior_Forall (Pr : vector -> Prop) (M : matrix) :
  (forall row, Pr row -> Pr (halve row)) ->
  Forall Pr M -> Forall Pr (halve_interior M).
Proof.
  intros Hh HM. destruct HM; simpl; constructor; auto.
  now apply halve_but_last_Forall.
Qed.

Lemma halve_but_last_sums (b a : R) (k : nat) (M : matrix) :
  map vsum M = repeat b k ++ [a] ->
  map vsum (halve_but_last M) = repeat (b / 2) k ++ [a].
Proof.
  revert M; induction k as [|k IH]; intros M HM; simpl in *.
  - destruct M as [|r [|r' M]]; simpl in *; try discriminate; auto.
  - destruct M as [|r M]; [discriminate|].
    simpl in HM. injection HM as Hr HM.
    destruct M as [|r' M].
    + destruct k; discriminate.
    + change (halve_but_last (r :: r' :: M))
        with (halve r :: halve_but_last (r' :: M)).
      rewrite map_cons, halve_sum, Hr. f_equal. now apply IH.
Qed.

End Arrays.

(** * The Rouwenhorst recursion keeps the matrix stochastic *)

Section Stochastic.

Lemma add_prefix_repeat (a b : R) (n : nat) :
  add_prefix (repeat a (S n)) (repeat b n) = repeat (a + b) n ++ [a].
Proof. induction n as [|n IH]; simpl in *; auto. now rewrite IH. Qed.

Lemma add_prefix_repeat_snoc (c d b : R) (k : nat) :
  add_prefix (repeat c k ++ [d]) (repeat b (S k))
  = repeat (c + b) k ++ [d + b].
Proof. induction k as [|k IH]; simpl in *; auto. now rewrite IH. Qed.

(** Row sums of an array of zeros after two blocks with unit row sums
    were added, one from row [0] and one from row [1]: the first and the
    last row got one block, the interior rows two. *)
Lemma block_sums_closed (k : nat) :
  add_row 1 (add_row 0 (repeat 0 (S (S k))) (repeat 1 (S k)))
          (repeat 1 (S k))
  = (0 + 1) :: repeat (0 + 1 + 1) k ++ [0 + 1].
Proof.
  change (add_row 0 (repeat 0 (S (S k))) (repeat 1 (S k)))
    with (add_prefix (repeat 0 (S (S k))) (repeat 1 (S k))).
  rewrite add_prefix_repeat.
  change (repeat (0 + 1) (S k) ++ [0])
    with ((0 + 1) :: (repeat (0 + 1) k ++ [0])).
  change (add_row 1 ((0 + 1) :: (repeat (0 + 1) k ++ [0])) (repeat 1 (S k)))
    with ((0 + 1) :: add_prefix (repeat (0 + 1) k ++ [0]) (repeat 1 (S k))).
  now rewrite add_prefix_repeat_snoc.
Qed.

Lemma unit_sums (M : matrix) :
  Forall (fun row => vsum row = 1) M ->
  map vsum M = repeat 1 (List.length M).
Proof. induction 1; simpl; auto. congruence. Qed.

Lemma vadd_map (f g : R -> R) (l : vector) :
  vadd (map f l) (map g l) = map (fun x => f x + g x) l.
Proof. induction l; simpl; auto. now rewrite IHl. Qed.

Lemma Forall_repeat (Pr : R -> Prop) (x : R) (n : nat) :
  Pr x -> Forall Pr (repeat x n).
Proof. intros Hx. induction n; simpl; constructor; auto. Qed.

Lemma base_stochastic (p : R) :
  0 <= p <= 1 -> stochastic 2 [[p; 1 - p]; [1 - p; p]].
Proof.
  intros Hp. unfold stochastic, shape, rows_of_length, mnonneg, nonneg.
  split; [split; [reflexivity | repeat apply Forall_cons; auto] |].
  split; repeat apply Forall_cons; auto; simpl; lra.
Qed.

(** One recursive step of [compute_P], from size [S k] to [S (S k)]. *)
Lemma step_stochastic (p : R) (k : nat) (Q : matrix) :
  0 <= p <= 1 ->
  stochastic (S k) Q ->
  let n := S (S k) in
  let A := add_block 1 1 (add_block 0 0 (zeros n n) Q) Q in
  let B := add_block 1 0 (add_block 0 1 (zeros n n) Q) Q in
  stochastic n (halve_interior (madd (mscale p A) (mscale (1 - p) B))).
Proof.
  intros Hp [[HlenQ HrowsQ] [HposQ HsumQ]] n A B.
  assert (HsQ : map vsum Q = repeat 1 (S k))
    by (rewrite unit_sums, HlenQ; auto).
  assert (HrA : rows_of_length n A)
    by (unfold A; repeat apply add_block_rows; apply zeros_rows).
  assert (HrB : rows_of_length n B)
    by (unfold B; repeat apply add_block_rows; apply zeros_rows).
  assert (HlA : List.length A = n)
    by (unfold A; rewrite !add_block_length; apply zeros_length).
  assert (HlB : List.length B = n)
    by (unfold B; rewrite !add_block_length; apply zeros_length).
  assert (HpA : mnonneg A)
    by (unfold A; repeat apply add_block_nonneg; auto; apply zeros_nonneg).
  assert (HpB : mnonneg B)
    by (unfold B; repeat apply add_block_nonneg; auto; apply zeros_nonneg).
  assert (HsA : map vsum A = (0 + 1) :: repeat (0 + 1 + 1) k ++ [0 + 1]).
  { unfold A.
    rewrite (add_block_sums 1 1 n (S k))
      by (auto using add_block_rows, zeros_rows; unfold n; lia).
    rewrite (add_block_sums 0 0 n (S k))
      by (auto using add_block_rows, zeros_rows; unfold n; lia).
    rewrite zeros_sums, HsQ. apply block_sums_closed. }
  assert (HsB : map vsum B = (0 + 1) :: repeat (0 + 1 + 1) k ++ [0 + 1]).
  { unfold B.
    rewrite (add_block_sums 1 0 n (S k))
      by (auto using add_block_rows, zeros_rows; unfold n; lia).
    rewrite (add_block_sums 0 1 n (S k))
      by (auto using add_block_rows, zeros_rows; unfold n; lia).
    rewrite zeros_sums, HsQ. apply block_sums_closed. }
  set (P := madd (mscale p A) (mscale (1 - p) B)).
  assert (HrP : rows_of_length n P)
    by (unfold P; apply madd_rows; apply mscale_rows; auto).
  assert (HlP : List.length P = n)
    by (unfold P; rewrite madd_length; rewrite !mscale_length; congruence).
  assert (HpP : mnonneg P)
    by (unfold P; apply madd_nonneg; apply mscale_nonneg; auto; lra).
  assert (HsP : map vsum P
                = (p * (0 + 1) + (1 - p) * (0 + 1))
                    :: repeat (p * (0 + 1 + 1) + (1 - p) * (0 + 1 + 1)) k
                    ++ [p * (0 + 1) + (1 - p) * (0 + 1)]).
  { unfold P.
    rewrite (madd_sums n) by (apply mscale_rows; auto).
    rewrite !mscale_sums, HsA, HsB, vadd_map.
    simpl. now rewrite map_app, map_repeat. }
  unfold stochastic, shape. repeat split.
  - now rewrite halve_interior_length.
  - unfold rows_of_length. apply halve_interior_Forall; auto.
    intros row Hrow. now rewrite halve_length.
  - apply halve_interior_Forall; auto. apply halve_nonneg.
  - apply (Forall_map vsum (fun x => x = 1)).
    destruct P as [|r0 P']; [discriminate|].
    simpl in HsP. injection HsP as Hr0 HsP'.
    simpl. rewrite (halve_but_last_sums _ _ _ _ HsP').
    constructor; [lra|].
    apply Forall_app. split.
    + apply Forall_repeat. lra.
    + constructor; [lra | constructor].
Qed.

End Stochastic.

(** * [compute_P]: what it returns, and when *)

Section ComputeP.

Lemma compute_P_unfold (fuel : nat) (p : R) (N : Z) :
  compute_P (S fuel) p N =
  if (N =? 2)%Z then Some [[p; 1 - p]; [1 - p; p]]
  else match compute_P fuel p (N - 1) with
       | None => None
       | Some Q =>
           let n := Z.to_nat N in
           let A := add_block 1 1 (add_block 0 0 (zeros n n) Q) Q in
           let B := add_block 1 0 (add_block 0 1 (zeros n n) Q) Q in
           Some (halve_interior (madd (mscale p A) (mscale (1 - p) B)))
       end.
Proof. reflexivity. Qed.

(** The three-state matrix, two frames deep. *)
Example compute_P_three (p : R) :
  compute_P 2 p 3
  = Some [[p * p; 2 * p * (1 - p); (1 - p) * (1 - p)];
          [p * (1 - p); p * p + (1 - p) * (1 - p); p * (1 - p)];
          [(1 - p) * (1 - p); 2 * p * (1 - p); p * p]].
Proof.
  simpl. f_equal.
  repeat match goal with
         | |- cons _ _ = cons _ _ => apply f_equal2
         | |- nil = nil => reflexivity
         end; field.
Qed.

(** One frame is not enough for three states. *)
Example compute_P_three_shallow (p : R) : compute_P 1 p 3 = None.
Proof. reflexivity. Qed.

(** A call that returns was made with [N >= 2]. *)
Lemma compute_P_some_ge (fuel : nat) (p : R) (N : Z) (P : matrix) :
  compute_P fuel p N = Some P -> (2 <= N)%Z.
Proof.
  revert N P; induction fuel as [|fuel IH]; intros N P H; [discriminate|].
  rewrite compute_P_unfold in H.
  destruct (Z.eqb_spec N 2) as [->|Hne]; [lia|].
  destruct (compute_P fuel p (N - 1)) as [Q|] eqn:HQ; [|discriminate].
  apply IH in HQ. lia.
Qed.

(** Below two the recursion never meets its base case. *)
Lemma compute_P_none_lt (fuel : nat) (p : R) (N : Z) :
  (N < 2)%Z -> compute_P fuel p N = None.
Proof.
  intros HN. destruct (compute_P fuel p N) as [P|] eqn:H; auto.
  apply compute_P_some_ge in H. lia.
Qed.

(** From two on, a depth of [N - 1] frames is enough. *)
Lemma compute_P_returns (fuel : nat) (p : R) (N : Z) :
  (2 <= N)%Z -> (depth N <= fuel)%nat ->
  exists P, compute_P fuel p N = Some P.
Proof.
  unfold depth. revert N; induction fuel as [|fuel IH]; intros N HN Hfuel.
  - lia.
  - rewrite compute_P_unfold.
    destruct (Z.eqb_spec N 2) as [->|Hne]; [eauto|].
    destruct (IH (N - 1)%Z) as [Q HQ]; [lia | lia |].
    rewrite HQ. eauto.
Qed.

(** A deeper budget does not change a result. *)
Lemma compute_P_fuel_mono (fuel fuel' : nat) (p : R) (N : Z) (P : matrix) :
  compute_P fuel p N = Some P -> (fuel <= fuel')%nat ->
  compute_P fuel' p N = Some P.
Proof.
  revert fuel' N P; induction fuel as [|fuel IH]; intros fuel' N P H Hle;
    [discriminate|].
  destruct fuel' as [|fuel']; [lia|].
  rewrite compute_P_unfold in *.
  destruct (Z.eqb_spec N 2) as [->|Hne]; auto.
  destruct (compute_P fuel p (N - 1)) as [Q|] eqn:HQ; [|discriminate].
  rewrite (IH fuel' _ _ HQ) by lia. exact H.
Qed.

Lemma compute_P_stochastic (fuel : nat) (p : R) (N : Z) (P : matrix) :
  0 <= p <= 1 ->
  compute_P fuel p N = Some P -> stochastic (Z.to_nat N) P.
Proof.
  intros Hp. revert N P; induction fuel as [|fuel IH]; intros N P H;
    [discriminate|].
  rewrite compute_P_unfold in H.
  destruct (Z.eqb_spec N 2) as [->|Hne].
  - injection H as <-. now apply base_stochastic.
  - destruct (compute_P fuel p (N - 1)) as [Q|] eqn:HQ; [|discriminate].
    pose proof (compute_P_some_ge _ _ _ _ HQ) as Hge.
    apply IH in HQ.
    replace (Z.to_nat (N - 1)) with (S (Z.to_nat (N - 2))) in HQ by lia.
    replace (Z.to_nat N) with (S (S (Z.to_nat (N - 2)))) in H |- * by lia.
    injection H as <-. now apply step_stochastic.
Qed.

Lemma stochastic_row_stochastic (n : nat) (M : matrix) :
  stochastic n M -> row_stochastic M.
Proof.
  intros [_ [Hpos Hsum]]. unfold row_stochastic, mnonneg in *.
  rewrite Forall_forall in *. intros row Hin.
  specialize (Hpos row Hin). specialize (Hsum row Hin). split; auto.
  destruct (nonneg_sum_le row Hpos) as [Hle _].
  now rewrite Hsum in Hle.
Qed.

(** The persistence bound puts [p = (1 + rho) / 2] inside [[0, 1]]. *)
Lemma p_in_unit (rho : R) : Rabs rho < 1 -> 0 <= (1 + rho) / 2 <= 1.
Proof. intros H. apply Rabs_def2 in H. lra. Qed.

End ComputeP.

(** * The state grid *)

Section Grid.

Lemma np_div_nat (x : R) (k : nat) :
  np_div (Finite x) (Finite (INR (S k))) = Finite (x / INR (S k)).
Proof.
  unfold np_div. destruct (Req_dec_T (INR (S k)) 0) as [H|H]; auto.
  exfalso. revert H. apply not_0_INR. discriminate.
Qed.

(** [np.linspace] between two finite end points. *)
Lemma np_linspace_finite (a b : R) (k : nat) :
  np_linspace (Finite a) (Finite b) (S (S k))
  = map (fun i => Finite (INR i * ((b + - a) / INR (S k)) + a))
        (seq 0 (S k)) ++ [Finite b].
Proof.
  unfold np_linspace, np_sub. cbn [np_neg np_add].
  rewrite np_div_nat. reflexivity.
Qed.

Lemma np_sqrt_nonneg (x : R) : 0 <= x -> np_sqrt x = Finite (sqrt x).
Proof. intros H. unfold np_sqrt. destruct (Rlt_dec x 0); auto. lra. Qed.

Lemma one_minus_sq_pos (rho : R) : Rabs rho < 1 -> 0 < 1 - rho ^ 2.
Proof. intros H. apply Rabs_def2 in H. nra. Qed.

(** With [N >= 2] and [|rho| < 1] the half-width is the finite number
    the specification names. *)
Lemma half_width_finite (N : Z) (rho sigma : R) :
  (2 <= N)%Z -> Rabs rho < 1 ->
  np_mul (np_sqrt (IZR (N - 1)))
         (np_div (Finite sigma) (np_sqrt (1 - rho ^ 2)))
  = Finite (spread N rho sigma).
Proof.
  intros HN Hrho. pose proof (one_minus_sq_pos rho Hrho) as Hpos.
  rewrite !np_sqrt_nonneg; [| lra | apply IZR_le; lia].
  unfold np_div, np_mul, spread.
  destruct (Req_dec_T (sqrt (1 - rho ^ 2)) 0) as [H0|H0].
  - exfalso. pose proof (sqrt_lt_R0 _ Hpos). lra.
  - f_equal. unfold Rdiv. ring.
Qed.

Lemma grid_evenly_spaced (mu f : R) (k : nat) :
  map (fun x => np_add x (Finite mu))
      (np_linspace (np_neg (Finite f)) (Finite f) (S (S k)))
  = map (fun i => Finite (mu - f
                          + INR i * ((mu + f - (mu - f)) / INR (S k))))
        (seq 0 (S (S k))).
Proof.
  cbn [np_neg]. rewrite np_linspace_finite.
  rewrite (seq_S (S k) 0), !map_app, map_map. f_equal.
  - apply map_ext. intros i. cbn [np_add]. f_equal. unfold Rdiv. ring.
  - cbn [map np_add Nat.add]. f_equal. f_equal.
    assert (INR (S k) <> 0) by (apply not_0_INR; discriminate).
    field. assumption.
Qed.

Lemma np_add_finite (a b : npfloat) :
  is_finite (np_add a b) = true ->
  is_finite a = true /\ is_finite b = true.
Proof. destruct a, b; simpl; auto; discriminate. Qed.

Lemma inf_of_sign_not_finite (x : R) : is_finite (inf_of_sign x) = false.
Proof.
  unfold inf_of_sign. destruct (Rlt_dec 0 x); auto.
  destruct (Rlt_dec x 0); auto.
Qed.

Lemma np_mul_finite (a b : npfloat) :
  is_finite (np_mul a b) = true ->
  is_finite a = true /\ is_finite b = true.
Proof.
  destruct a, b; simpl; auto; try discriminate;
    rewrite inf_of_sign_not_finite; discriminate.
Qed.

Lemma np_neg_finite (a : npfloat) : is_finite (np_neg a) = is_finite a.
Proof. destruct a; reflexivity. Qed.

(** A grid between two non-finite end points has no finite point. *)
Lemma np_linspace_not_finite (start stop : npfloat) (num : nat) :
  is_finite start = false -> is_finite stop = false ->
  Forall (fun x => is_finite x = false) (np_linspace start stop num).
Proof.
  intros Hstart Hstop. unfold np_linspace.
  destruct num as [|[|k]]; auto.
  apply Forall_app. split; [|auto].
  apply Forall_map, Forall_forall. intros i _.
  destruct (is_finite (np_add _ start)) eqn:H; auto.
  apply np_add_finite in H. destruct H as [_ H]. congruence.
Qed.

(** With [|rho| >= 1] the half-width is [nan] or an infinity. *)
Lemma half_width_not_finite (N : Z) (rho sigma : R) :
  1 <= Rabs rho ->
  is_finite (np_mul (np_sqrt (IZR (N - 1)))
                    (np_div (Finite sigma) (np_sqrt (1 - rho ^ 2))))
  = false.
Proof.
  intros Hrho.
  assert (Hsq : 1 - rho ^ 2 <= 0).
  { assert (1 <= rho ^ 2); [|lra].
    rewrite <- (Rabs_pos_eq (rho ^ 2)) by nra.
    rewrite <- RPow_abs. pose proof (Rabs_pos rho). nra. }
  match goal with |- is_finite ?t = false => destruct (is_finite t) eqn:H end;
    auto.
  apply np_mul_finite in H. destruct H as [_ H]. revert H.
  unfold np_sqrt at 1. destruct (Rlt_dec (1 - rho ^ 2) 0) as [Hlt|Hge].
  - simpl. discriminate.
  - replace (1 - rho ^ 2) with 0 by lra. rewrite sqrt_0.
    unfold np_div. destruct (Req_dec_T 0 0) as [_|Hne]; [|lra].
    now rewrite inf_of_sign_not_finite.
Qed.

End Grid.

(** * [rouwenhorst] *)

Section Rouwenhorst.

Lemma np_linspace_length (start stop : npfloat) (num : nat) :
  List.length (np_linspace start stop num) = num.
Proof.
  unfold np_linspace. destruct num as [|[|k]]; auto.
  rewrite length_app, length_map, length_seq. simpl. lia.
Qed.

Lemma rouwenhorst_eq (fuel : nat) (N : Z) (mu rho sigma : R) (P : matrix) :
  compute_P fuel ((1 + rho) / 2) N = Some P ->
  rouwenhorst fuel N mu rho sigma
  = Some (map (fun x => np_add x (Finite mu))
              (np_linspace
                 (np_neg (np_mul (np_sqrt (IZR (N - 1)))
                                 (np_div (Finite sigma)
                                         (np_sqrt (1 - rho ^ 2)))))
                 (np_mul (np_sqrt (IZR (N - 1)))
                         (np_div (Finite sigma) (np_sqrt (1 - rho ^ 2))))
                 (Z.to_nat N)),
          P).
Proof. intros H. unfold rouwenhorst. now rewrite H. Qed.

(** [rouwenhorst] returns exactly when [compute_P] does. *)
Lemma rouwenhorst_of_compute_P (fuel : nat) (N : Z) (mu rho sigma : R)
      (P : matrix) :
  compute_P fuel ((1 + rho) / 2) N = Some P ->
  exists s, rouwenhorst fuel N mu rho sigma = Some (s, P)
            /\ List.length s = Z.to_nat N.
Proof.
  intros H. unfold rouwenhorst. rewrite H. eexists. split; [reflexivity|].
  now rewrite length_map, np_linspace_length.
Qed.

Lemma rouwenhorst_none (fuel : nat) (N : Z) (mu rho sigma : R) :
  compute_P fuel ((1 + rho) / 2) N = None ->
  rouwenhorst fuel N mu rho sigma = None.
Proof. intros H. unfold rouwenhorst. now rewrite H. Qed.

(** The states returned for [N >= 2] and [|rho| < 1]. *)
Lemma rouwenhorst_states (fuel : nat) (N : Z) (mu rho sigma : R)
      (s : list npfloat) (P : matrix) :
  Rabs rho < 1 ->
  rouwenhorst fuel N mu rho sigma = Some (s, P) ->
  let f := spread N rho sigma in
  evenly_spaced (mu - f) (mu + f) (Z.to_nat N) s.
Proof.
  intros Hrho H f.
  destruct (compute_P fuel ((1 + rho) / 2) N) as [P'|] eqn:HP;
    [|now rewrite rouwenhorst_none in H].
  pose proof (compute_P_some_ge _ _ _ _ HP) as HN.
  rewrite (rouwenhorst_eq _ _ _ _ _ _ HP) in H.
  rewrite half_width_finite in H by auto. fold f in H.
  assert (Hs : s = map (fun x => np_add x (Finite mu))
                       (np_linspace (np_neg (Finite f)) (Finite f)
                                    (Z.to_nat N)))
    by congruence.
  rewrite Hs. clear H Hs.
  replace (Z.to_nat N) with (S (S (Z.to_nat (N - 2)))) by lia.
  unfold evenly_spaced. rewrite grid_evenly_spaced.
  replace (S (S (Z.to_nat (N - 2))) - 1)%nat with (S (Z.to_nat (N - 2)))
    by lia.
  reflexivity.
Qed.

(** Points of an evenly spaced grid lie between its end points. *)
Lemma evenly_spaced_bounds (lo hi : R) (n : nat) (s : list npfloat) :
  lo <= hi -> evenly_spaced lo hi n s ->
  Forall (fun x => exists v, x = Finite v /\ lo <= v <= hi) s.
Proof.
  intros Hle ->. apply Forall_map, Forall_forall. intros i Hi.
  apply in_seq in Hi. eexists. split; [reflexivity|].
  destruct n as [|[|k]]; [lia | |].
  - assert (i = 0%nat) by lia. subst i. simpl. lra.
  - replace (S (S k) - 1)%nat with (S k) by lia.
    assert (Hk : 0 < INR (S k)) by (apply lt_0_INR; lia).
    assert (Hi0 : 0 <= INR i) by apply pos_INR.
    assert (Hik : INR i <= INR (S k)) by (apply le_INR; lia).
    assert (Hq : 0 <= INR i / INR (S k) <= 1).
    { split.
      - apply Rmult_le_pos; auto. apply Rlt_le, Rinv_0_lt_compat, Hk.
      - apply (Rmult_le_reg_r (INR (S k))); auto.
        unfold Rdiv. rewrite Rmult_assoc, Rinv_l by lra. lra. }
    replace (INR i * ((hi - lo) / INR (S k)))
      with ((INR i / INR (S k)) * (hi - lo)) by (field; lra).
    nra.
Qed.

End Rouwenhorst.

(** * Claims on [rouwenhorst] *)

(** C1.  For every state count [N >= 2] and persistence [|rho| < 1],
    [rouwenhorst] returns an [N]-by-[N] transition matrix that is
    row-stochastic: every row sums to one and every entry lies in
    [[0, 1]]. *)
Theorem rouwenhorst_row_stochastic (fuel : nat) (N : Z) (mu rho sigma : R) :
  (2 <= N)%Z -> Rabs rho < 1 -> (depth N <= fuel)%nat ->
  exists s P,
    rouwenhorst fuel N mu rho sigma = Some (s, P)
    /\ shape (Z.to_nat N) (Z.to_nat N) P
    /\ row_stochastic P.
Proof.
  intros HN Hrho Hfuel.
  destruct (compute_P_returns fuel ((1 + rho) / 2) N HN Hfuel) as [P HP].
  destruct (rouwenhorst_of_compute_P fuel N mu rho sigma P HP) as [s [Hs _]].
  pose proof (compute_P_stochastic _ _ _ _ (p_in_unit rho Hrho) HP) as Hst.
  exists s, P. split; [exact Hs|]. split.
  - apply Hst.
  - eapply stochastic_row_stochastic; eauto.
Qed.

Lemma rouwenhorst_row_stochastic_witness :
  (2 <= 3)%Z /\ Rabs 0.5 < 1 /\ (depth 3 <= 2)%nat /\
  exists s P,
    rouwenhorst 2 3 0 0.5 1 = Some (s, P)
    /\ shape (Z.to_nat 3) (Z.to_nat 3) P
    /\ row_stochastic P.
Proof.
  assert (H1 : (2 <= 3)%Z) by lia.
  assert (H2 : Rabs 0.5 < 1) by (apply Rabs_def1; lra).
  assert (H3 : (depth 3 <= 2)%nat) by (vm_compute; lia).
  repeat split; auto.
  exact (rouwenhorst_row_stochastic 2 3 0 0.5 1 H1 H2 H3).
Defined.

(** C2.  For [N = 2] the matrix is [[[p, 1-p], [1-p, p]]] with
    [p = (1 + rho) / 2]; it comes out of the base case, a single frame of
    [compute_P] with no recursive call; for [rho = 0.5] it is
    [[[0.75, 0.25], [0.25, 0.75]]]. *)
Theorem rouwenhorst_two_states :
  (forall fuel mu rho sigma,
      let p := (1 + rho) / 2 in
      exists s, rouwenhorst (S fuel) 2 mu rho sigma
                = Some (s, [[p; 1 - p]; [1 - p; p]]))
  /\ (forall p, compute_P 1 p 2 = Some [[p; 1 - p]; [1 - p; p]])
  /\ (forall fuel mu sigma,
         exists s, rouwenhorst (S fuel) 2 mu 0.5 sigma
                   = Some (s, [[0.75; 0.25]; [0.25; 0.75]])).
Proof.
  split; [|split].
  - intros fuel mu rho sigma p.
    destruct (rouwenhorst_of_compute_P (S fuel) 2 mu rho sigma
                [[p; 1 - p]; [1 - p; p]] eq_refl) as [s [Hs _]].
    eauto.
  - reflexivity.
  - intros fuel mu sigma.
    assert (HP : compute_P (S fuel) ((1 + 0.5) / 2) 2
                 = Some [[0.75; 0.25]; [0.25; 0.75]]).
    { rewrite compute_P_unfold. simpl.
      replace ((1 + 0.5) / 2) with 0.75 by lra.
      replace (1 - 0.75) with 0.25 by lra. reflexivity. }
    destruct (rouwenhorst_of_compute_P (S fuel) 2 mu 0.5 sigma _ HP)
      as [s [Hs _]].
    eauto.
Qed.

Lemma evenly_spaced_nth (lo hi : R) (n i : nat) (s : list npfloat) :
  evenly_spaced lo hi n s -> (i < n)%nat ->
  nth i s NaN = Finite (lo + INR i * ((hi - lo) / INR (n - 1))).
Proof.
  intros -> Hi.
  set (g := fun j => Finite (lo + INR j * ((hi - lo) / INR (n - 1)))).
  rewrite (nth_indep _ NaN (g 0%nat)) by (now rewrite length_map, length_seq).
  rewrite map_nth, seq_nth by auto. reflexivity.
Qed.

Lemma spread_nonneg (N : Z) (rho sigma : R) :
  Rabs rho < 1 -> 0 <= sigma -> 0 <= spread N rho sigma.
Proof.
  intros Hrho Hsigma. unfold spread, Rdiv.
  apply Rmult_le_pos; [apply Rmult_le_pos; auto; apply sqrt_pos|].
  apply Rlt_le, Rinv_0_lt_compat, sqrt_lt_R0. now apply one_minus_sq_pos.
Qed.

(** C3.  For [N >= 2], [|rho| < 1], [sigma >= 0] and any mean [mu], the
    state values returned by [rouwenhorst] are [N] points evenly spaced
    over [[mu - f, mu + f]], [f = sqrt(N-1) * sigma / sqrt(1 - rho^2)]:
    the first is [mu - f], the last is [mu + f], the point of index [i] is
    [mu - f + i * 2f / (N - 1)], and all lie in the interval. *)
Theorem rouwenhorst_states_evenly_spaced
        (fuel : nat) (N : Z) (mu rho sigma : R) :
  (2 <= N)%Z -> Rabs rho < 1 -> 0 <= sigma -> (depth N <= fuel)%nat ->
  let f := spread N rho sigma in
  exists s P,
    rouwenhorst fuel N mu rho sigma = Some (s, P)
    /\ List.length s = Z.to_nat N
    /\ evenly_spaced (mu - f) (mu + f) (Z.to_nat N) s
    /\ nth 0 s NaN = Finite (mu - f)
    /\ nth (Z.to_nat N - 1) s NaN = Finite (mu + f)
    /\ Forall (fun x => exists v, x = Finite v /\ mu - f <= v <= mu + f) s.
Proof.
  intros HN Hrho Hsigma Hfuel f.
  destruct (compute_P_returns fuel ((1 + rho) / 2) N HN Hfuel) as [P HP].
  destruct (rouwenhorst_of_compute_P fuel N mu rho sigma P HP)
    as [s [Hs Hlen]].
  pose proof (rouwenhorst_states _ _ _ _ _ _ _ Hrho Hs) as Hev.
  fold f in Hev.
  pose proof (spread_nonneg N rho sigma Hrho Hsigma) as Hf. fold f in Hf.
  exists s, P. repeat split; auto.
  - rewrite (evenly_spaced_nth _ _ _ _ _ Hev) by lia. f_equal. simpl. lra.
  - rewrite (evenly_spaced_nth _ _ _ _ _ Hev) by lia. f_equal.
    assert (INR (Z.to_nat N - 1) <> 0) by (apply not_0_INR; lia).
    field. assumption.
  - eapply evenly_spaced_bounds; eauto. lra.
Qed.

Lemma rouwenhorst_states_evenly_spaced_witness :
  (2 <= 3)%Z /\ Rabs 0.5 < 1 /\ 0 <= 1 /\ (depth 3 <= 2)%nat /\
  let f := spread 3 0.5 1 in
  exists s P,
    rouwenhorst 2 3 0 0.5 1 = Some (s, P)
    /\ List.length s = Z.to_nat 3
    /\ evenly_spaced (0 - f) (0 + f) (Z.to_nat 3) s
    /\ nth 0 s NaN = Finite (0 - f)
    /\ nth (Z.to_nat 3 - 1) s NaN = Finite (0 + f)
    /\ Forall (fun x => exists v, x = Finite v /\ 0 - f <= v <= 0 + f) s.
Proof.
  assert (H1 : (2 <= 3)%Z) by lia.
  assert (H2 : Rabs 0.5 < 1) by (apply Rabs_def1; lra).
  assert (H3 : 0 <= 1) by lra.
  assert (H4 : (depth 3 <= 2)%nat) by (vm_compute; lia).
  split; [exact H1|]. split; [exact H2|]. split; [exact H3|].
  split; [exact H4|].
  exact (rouwenhorst_states_evenly_spaced 2 3 0 0.5 1 H1 H2 H3 H4).
Defined.

(** C9.  For every [N >= 2] the recursion of [compute_P] terminates: each
    call on [N <> 2] recurses on [N - 1], whose depth is strictly smaller,
    the base case [N = 2] is reached after [N - 2] recursive calls, and
    [rouwenhorst] returns. *)
Theorem compute_P_terminates (N : Z) (mu rho sigma : R) :
  (2 <= N)%Z -> Rabs rho < 1 ->
  (N <> 2%Z -> (depth (N - 1) < depth N)%nat /\ (2 <= N - 1)%Z)
  /\ depth 2 = 1%nat
  /\ (forall fuel, (depth N <= fuel)%nat ->
        exists P, compute_P fuel ((1 + rho) / 2) N = Some P)
  /\ (forall fuel, (depth N <= fuel)%nat ->
        exists s P, rouwenhorst fuel N mu rho sigma = Some (s, P)).
Proof.
  intros HN Hrho. split; [|split; [|split]].
  - intros Hne. unfold depth. lia.
  - reflexivity.
  - intros fuel Hfuel. now apply compute_P_returns.
  - intros fuel Hfuel.
    destruct (compute_P_returns fuel ((1 + rho) / 2) N HN Hfuel) as [P HP].
    destruct (rouwenhorst_of_compute_P fuel N mu rho sigma P HP)
      as [s [Hs _]].
    eauto.
Qed.

Lemma compute_P_terminates_witness :
  (2 <= 9)%Z /\ Rabs 0.53 < 1 /\
  forall fuel, (depth 9 <= fuel)%nat ->
    exists s P, rouwenhorst fuel 9 0.0 0.53 0.296 = Some (s, P).
Proof.
  assert (H1 : (2 <= 9)%Z) by lia.
  assert (H2 : Rabs 0.53 < 1) by (apply Rabs_def1; lra).
  split; [exact H1|]. split; [exact H2|].
  exact (proj2 (proj2 (proj2 (compute_P_terminates 9 0.0 0.53 0.296 H1 H2)))).
Defined.

(** C4, as stated, fails: with [sigma = -1 < 0] (and [N = 2], [rho = 0])
    [rouwenhorst] raises nothing and returns a chain, the grid running
    downwards from [1] to [-1]. *)
Lemma rouwenhorst_negative_sigma_returns :
  -1 < 0 /\
  rouwenhorst 1 2 0 0 (-1)
  = Some ([Finite 1; Finite (-1)], [[0.5; 0.5]; [0.5; 0.5]]).
Proof.
  split; [lra|].
  assert (HP : compute_P 1 ((1 + 0) / 2) 2 = Some [[0.5; 0.5]; [0.5; 0.5]]).
  { simpl. replace ((1 + 0) / 2) with 0.5 by lra.
    replace (1 - 0.5) with 0.5 by lra. reflexivity. }
  rewrite (rouwenhorst_eq _ _ _ _ _ _ HP).
  rewrite half_width_finite; [| lia | apply Rabs_def1; lra].
  assert (Hf : spread 2 0 (-1) = -1).
  { unfold spread. simpl (2 - 1)%Z.
    replace (1 - 0 ^ 2) with 1 by (simpl; lra).
    rewrite sqrt_1. lra. }
  rewrite Hf. change (Z.to_nat 2) with 2%nat.
  rewrite grid_evenly_spaced. simpl.
  repeat f_equal; lra.
Qed.

(** C4, amended.  [rouwenhorst] validates nothing.  For [N < 2] it does
    not return, because the recursion of [compute_P] never meets its base
    case, whatever the depth allowed.  For [N >= 2] it returns [N] state
    values and a matrix for every [mu], [rho] and [sigma], negative
    [sigma] included; when [|rho| >= 1] no state value is finite ([nan] or
    an infinity). *)
Theorem rouwenhorst_no_validation :
  (forall fuel N mu rho sigma,
      (N < 2)%Z -> rouwenhorst fuel N mu rho sigma = None)
  /\ (forall fuel N mu rho sigma,
         (2 <= N)%Z -> (depth N <= fuel)%nat ->
         exists s P,
           rouwenhorst fuel N mu rho sigma = Some (s, P)
           /\ List.length s = Z.to_nat N
           /\ (1 <= Rabs rho -> Forall (fun x => is_finite x = false) s)).
Proof.
  split.
  - intros fuel N mu rho sigma HN.
    apply rouwenhorst_none. now apply compute_P_none_lt.
  - intros fuel N mu rho sigma HN Hfuel.
    destruct (compute_P_returns fuel ((1 + rho) / 2) N HN Hfuel) as [P HP].
    eexists. exists P. split; [apply (rouwenhorst_eq _ _ _ _ _ _ HP)|].
    split; [now rewrite length_map, np_linspace_length|].
    intros Hrho. apply Forall_map.
    pose proof (half_width_not_finite N rho sigma Hrho) as Hf.
    eapply Forall_impl;
      [| apply np_linspace_not_finite;
         [rewrite np_neg_finite; exact Hf | exact Hf]].
    intros a Ha. simpl in Ha.
    destruct (is_finite (np_add a (Finite mu))) eqn:H; auto.
    apply np_add_finite in H. destruct H as [H _]. congruence.
Qed.

Lemma rouwenhorst_no_validation_witness :
  ((1 < 2)%Z /\ rouwenhorst 50 1 0 0.5 1 = None)
  /\ ((2 <= 3)%Z /\ (depth 3 <= 2)%nat /\ 1 <= Rabs 1 /\
      exists s P,
        rouwenhorst 2 3 0 1 (-1) = Some (s, P)
        /\ List.length s = Z.to_nat 3
        /\ Forall (fun x => is_finite x = false) s).
Proof.
  assert (H0 : (1 < 2)%Z) by lia.
  assert (H1 : (2 <= 3)%Z) by lia.
  assert (H2 : (depth 3 <= 2)%nat) by (vm_compute; lia).
  assert (H3 : 1 <= Rabs 1) by (rewrite Rabs_R1; lra).
  split.
  - split; [exact H0|].
    exact (proj1 rouwenhorst_no_validation 50%nat 1%Z 0 0.5 1 H0).
  - split; [exact H1|]. split; [exact H2|]. split; [exact H3|].
    destruct (proj2 rouwenhorst_no_validation 2%nat 3%Z 0 1 (-1) H1 H2)
      as [s [P [Hs [Hlen Hnf]]]].
    exists s, P. split; [exact Hs|]. split; [exact Hlen|]. exact (Hnf H3).
Defined.

(** * [factor_prices] *)

Section FactorPrices.

Lemma py_div_nonzero (x y : R) : y <> 0 -> py_div x y = Return (x / y).
Proof. intros H. unfold py_div. destruct (Req_dec_T y 0); tauto. Qed.

Lemma py_div_zero (x : R) : py_div x 0 = Raise ZeroDivisionError.
Proof. unfold py_div. destruct (Req_dec_T 0 0); tauto. Qed.

(** On a positive base the Python power is the real power. *)
Lemma py_pow_pos (x y : R) :
  0 < x -> py_pow x y = Return (PyFloat (Rpower x y)).
Proof.
  intros Hx. unfold py_pow.
  destruct (Req_dec_T y 0) as [->|Hy].
  - now rewrite Rpower_O.
  - destruct (Req_dec_T x 0); [lra|]. destruct (Rlt_dec x 0); [lra|].
    reflexivity.
Qed.

Lemma py_pow_zero_negative (y : R) :
  y < 0 -> py_pow 0 y = Raise ZeroDivisionError.
Proof.
  intros Hy. unfold py_pow.
  destruct (Req_dec_T y 0); [lra|]. destruct (Req_dec_T 0 0); [|lra].
  destruct (Rlt_dec y 0); tauto.
Qed.

(** A negative base with an exponent strictly between two consecutive
    integers gives a complex number. *)
Lemma py_pow_negative_fractional (x y : R) (z : Z) :
  x < 0 -> IZR z < y < IZR (z + 1) ->
  exists re im, py_pow x y = Return (PyComplex re im).
Proof.
  intros Hx [Hlo Hhi]. unfold py_pow.
  assert (Hint : forall k : Z, y <> IZR k).
  { intros k Hk. subst y. apply lt_IZR in Hlo, Hhi. lia. }
  destruct (Req_dec_T y 0) as [Hy|_]; [now apply (Hint 0%Z) in Hy|].
  destruct (Req_dec_T x 0); [lra|]. destruct (Rlt_dec x 0); [|lra].
  destruct (Req_dec_T y (IZR (Int_part y))) as [Hy|_];
    [now apply Hint in Hy|].
  eauto.
Qed.

(** What the function returns when the ratio [K / L] is positive. *)
Lemma factor_prices_positive_ratio (K L a : R) (pm : params) :
  getitem pm "alpha" = Return a -> L <> 0 -> 0 < K / L ->
  factor_prices K L pm
  = Return (PyFloat (a * Rpower (K / L) (a - 1)),
            PyFloat ((1 - a) * Rpower (K / L) a)).
Proof.
  intros Ha HL Hq. unfold factor_prices. rewrite Ha. simpl.
  rewrite py_div_nonzero by auto. simpl.
  rewrite !py_pow_pos by auto. reflexivity.
Qed.

Lemma ratio_pos (K L : R) : 0 < K -> 0 < L -> 0 < K / L.
Proof. intros. now apply Rdiv_lt_0_compat. Qed.

Lemma ratio_neg_neg (K L : R) : K < 0 -> L < 0 -> 0 < K / L.
Proof.
  intros HK HL. replace (K / L) with ((- K) / (- L)) by (field; lra).
  apply Rdiv_lt_0_compat; lra.
Qed.

Lemma Rpower_one_base (y : R) : Rpower 1 y = 1.
Proof. unfold Rpower. now rewrite ln_1, Rmult_0_r, exp_0. Qed.

End FactorPrices.

(** C5.  For [K > 0], [L > 0] and a capital share [alpha] in [(0, 1)],
    [factor_prices] returns [r = alpha * (K/L)^(alpha-1)] and
    [w = (1-alpha) * (K/L)^alpha]; with the notebook's [alpha = 0.5] and
    [K = L = 1] it returns [r = w = 0.5]. *)
Theorem factor_prices_formula :
  (forall (K L a : R) (pm : params),
      getitem pm "alpha" = Return a -> 0 < K -> 0 < L -> 0 < a < 1 ->
      factor_prices K L pm
      = Return (PyFloat (a * Rpower (K / L) (a - 1)),
                PyFloat ((1 - a) * Rpower (K / L) a)))
  /\ factor_prices 1 1 param = Return (PyFloat 0.5, PyFloat 0.5).
Proof.
  split.
  - intros K L a pm Ha HK HL _.
    apply factor_prices_positive_ratio; auto; [lra | now apply ratio_pos].
  - rewrite (factor_prices_positive_ratio 1 1 0.5 param eq_refl);
      [| lra | lra].
    replace (1 / 1) with 1 by lra. rewrite !Rpower_one_base.
    repeat f_equal; lra.
Qed.

Lemma factor_prices_formula_witness :
  getitem param "alpha" = Return 0.5 /\ 0 < 10 /\ 0 < 2 /\ 0 < 0.5 < 1 /\
  factor_prices 10 2 param
  = Return (PyFloat (0.5 * Rpower (10 / 2) (0.5 - 1)),
            PyFloat ((1 - 0.5) * Rpower (10 / 2) 0.5)).
Proof.
  assert (H0 : getitem param "alpha" = Return 0.5) by reflexivity.
  assert (H1 : 0 < 10) by lra.
  assert (H2 : 0 < 2) by lra.
  assert (H3 : 0 < 0.5 < 1) by lra.
  split; [exact H0|]. split; [exact H1|]. split; [exact H2|].
  split; [exact H3|].
  exact (proj1 factor_prices_formula 10 2 0.5 param H0 H1 H2 H3).
Defined.

(** C10.  [factor_prices] is homogeneous of degree zero in [(K, L)]: for
    [K > 0], [L > 0] and [t > 0] the call on [(t*K, t*L)] returns what the
    call on [(K, L)] returns, whatever the parameters. *)
Theorem factor_prices_homogeneous (K L t : R) (pm : params) :
  0 < K -> 0 < L -> 0 < t ->
  factor_prices (t * K) (t * L) pm = factor_prices K L pm.
Proof.
  intros HK HL Ht. unfold factor_prices.
  assert (HtL : t * L <> 0) by (apply Rmult_integral_contrapositive; lra).
  rewrite (py_div_nonzero (t * K) (t * L)) by exact HtL.
  rewrite (py_div_nonzero K L) by lra.
  replace (t * K / (t * L)) with (K / L) by (field; lra).
  reflexivity.
Qed.

Lemma factor_prices_homogeneous_witness :
  0 < 10 /\ 0 < 2 /\ 0 < 3 /\
  factor_prices (3 * 10) (3 * 2) param = factor_prices 10 2 param.
Proof.
  assert (H1 : 0 < 10) by lra.
  assert (H2 : 0 < 2) by lra.
  assert (H3 : 0 < 3) by lra.
  split; [exact H1|]. split; [exact H2|]. split; [exact H3|].
  exact (factor_prices_homogeneous 10 2 3 param H1 H2 H3).
Defined.


(** The NumPy power on a finite base. *)
Lemma np_pow_pos (x y : R) :
  0 < x -> np_pow (Finite x) y = Finite (Rpower x y).
Proof.
  intros Hx. unfold np_pow.
  destruct (Req_dec_T y 0) as [->|Hy]; [now rewrite Rpower_O|].
  destruct (Req_dec_T x 0); [lra|]. destruct (Rlt_dec x 0); [lra|].
  reflexivity.
Qed.

Lemma np_pow_negative_fractional (x y : R) (z : Z) :
  x < 0 -> IZR z < y < IZR (z + 1) -> np_pow (Finite x) y = NaN.
Proof.
  intros Hx [Hlo Hhi]. unfold np_pow.
  assert (Hint : forall k : Z, y <> IZR k).
  { intros k Hk. subst y. apply lt_IZR in Hlo, Hhi. lia. }
  destruct (Req_dec_T y 0) as [Hy|_]; [now apply (Hint 0%Z) in Hy|].
  destruct (Req_dec_T x 0); [lra|]. destruct (Rlt_dec x 0); [|lra].
  destruct (Req_dec_T y (IZR (Int_part y))) as [Hy|_];
    [now apply Hint in Hy | reflexivity].
Qed.

(** An infinite base of either sign, for exponents inside [(-1, 0)] and
    [(0, 1)]. *)
Lemma np_pow_inf (x y : R) :
  x <> 0 ->
  (-1 < y < 0 -> np_pow (inf_of_sign x) y = Finite 0)
  /\ (0 < y < 1 -> np_pow (inf_of_sign x) y = PInf).
Proof.
  intros Hx. unfold inf_of_sign, np_pow.
  destruct (Rlt_dec 0 x); [|destruct (Rlt_dec x 0); [|lra]];
    (split; intros Hy;
     (destruct (Req_dec_T y 0); [lra|]);
     (destruct (Rlt_dec y 0); try lra; auto)).
  destruct (Req_dec_T y (IZR (Int_part y))) as [Hint|_]; auto.
  exfalso. destruct Hy as [Hlo Hhi]. rewrite Hint in Hlo, Hhi.
  apply lt_IZR in Hlo, Hhi. lia.
Qed.

Lemma np_div_finite (x y : R) :
  y <> 0 -> np_div (Finite x) (Finite y) = Finite (x / y).
Proof. intros Hy. unfold np_div. destruct (Req_dec_T y 0); tauto. Qed.

Lemma np_div_zero (x : R) : np_div (Finite x) (Finite 0) = inf_of_sign x.
Proof. unfold np_div. destruct (Req_dec_T 0 0); tauto. Qed.

(** On a positive ratio the NumPy call returns the prices the Python call
    returns. *)
Lemma factor_prices_np_positive_ratio (K L a : R) (pm : params) :
  getitem pm "alpha" = Return a -> L <> 0 -> 0 < K / L ->
  factor_prices_np (Finite K) (Finite L) pm
  = Return (Finite (a * Rpower (K / L) (a - 1)),
            Finite ((1 - a) * Rpower (K / L) a)).
Proof.
  intros Ha HL Hq. unfold factor_prices_np. rewrite Ha. unfold bind.
  rewrite np_div_finite by auto. rewrite !np_pow_pos by auto. reflexivity.
Qed.



(** * [aggregate_kl] *)

(** C7.  For every [dist] and [states], [aggregate_kl] computes its two
    outputs by the same expression, the inner product [dist @ states]:
    whenever it returns [(K, L)], both are that inner product and
    [K = L]. *)
Theorem aggregate_kl_same_outputs (states dist : vector) (pm : params) :
  aggregate_kl states dist pm = (x <- matmul dist states ;; Return (x, x))
  /\ (List.length dist = List.length states ->
      aggregate_kl states dist pm
      = Return (dot dist states, dot dist states))
  /\ (forall K L,
         aggregate_kl states dist pm = Return (K, L) ->
         K = dot dist states /\ L = dot dist states /\ K = L).
Proof.
  unfold aggregate_kl, matmul.
  destruct (Nat.eqb_spec (List.length dist) (List.length states)) as [He|Hne];
    simpl.
  - split; [reflexivity|]. split; [reflexivity|].
    intros K L H. injection H as <- <-. auto.
  - split; [reflexivity|]. split; [intros He; contradiction|].
    intros K L H. discriminate.
Qed.

Lemma aggregate_kl_same_outputs_witness :
  List.length [0.2; 0.3; 0.5] = List.length [1; 2; 3] /\
  aggregate_kl [1; 2; 3] [0.2; 0.3; 0.5] param
  = Return (dot [0.2; 0.3; 0.5] [1; 2; 3], dot [0.2; 0.3; 0.5] [1; 2; 3]).
Proof.
  assert (H : List.length [0.2; 0.3; 0.5] = List.length [1; 2; 3])
    by reflexivity.
  split; [exact H|].
  exact (proj1 (proj2 (aggregate_kl_same_outputs
                         [1; 2; 3] [0.2; 0.3; 0.5] param)) H).
Defined.

(** * [solve_pfi] *)


(** * Entries of the arrays *)

Section Entries.

Lemma nth_add_prefix (row q : vector) (j : nat) :
  (List.length q <= List.length row)%nat ->
  nth j (add_prefix row q) 0 = nth j row 0 + nth j q 0.
Proof.
  revert q j; induction row as [|x row IH]; intros [|y q] j Hlen;
    simpl in *; try lia.
  - destruct j; lra.
  - destruct j; lra.
  - destruct j; [lra|]. apply IH. lia.
Qed.

Lemma nth_add_row (c : nat) (row q : vector) (j : nat) :
  (c + List.length q <= List.length row)%nat ->
  nth j (add_row c row q) 0
  = nth j row 0 + (if (c <=? j)%nat then nth (j - c) q 0 else 0).
Proof.
  revert row j; induction c as [|c IH]; intros row j Hlen.
  - simpl add_row. rewrite nth_add_prefix by (simpl in Hlen; lia).
    simpl. now rewrite Nat.sub_0_r.
  - destruct row as [|x row]; [simpl in Hlen; lia|].
    simpl add_row. destruct j as [|j]; [simpl; lra|].
    simpl nth at 1 2. rewrite IH by (simpl in Hlen; lia). reflexivity.
Qed.

Lemma entry_nil (i j : nat) : entry [] i j = 0.
Proof. unfold entry. destruct i, j; reflexivity. Qed.

Lemma entry_cons_O (row : vector) (M : matrix) (j : nat) :
  entry (row :: M) 0 j = nth j row 0.
Proof. reflexivity. Qed.

Lemma entry_cons_S (row : vector) (M : matrix) (i j : nat) :
  entry (row :: M) (S i) j = entry M i j.
Proof. reflexivity. Qed.

Lemma nth_nil_R (j : nat) : nth j (@nil R) 0 = 0.
Proof. destruct j; reflexivity. Qed.

Lemma entry_add_rows (c m w : nat) (M Q : matrix) (i j : nat) :
  rows_of_length m M -> rows_of_length w Q -> (c + w <= m)%nat ->
  (List.length Q <= List.length M)%nat ->
  entry (add_rows c M Q) i j = entry M i j + shifted 0 c Q i j.
Proof.
  unfold rows_of_length, shifted. intros HM; revert Q i.
  induction HM as [|row M Hrow HM IH]; intros Q i HQ Hfit Hlen.
  - destruct Q; [|simpl in Hlen; lia]. simpl.
    rewrite Nat.sub_0_r, !entry_nil. destruct (c <=? j)%nat; lra.
  - destruct HQ as [|q Q Hq HQ].
    + simpl add_rows. rewrite Nat.sub_0_r, entry_nil.
      simpl. destruct (c <=? j)%nat; lra.
    + simpl add_rows. destruct i as [|i].
      * rewrite !entry_cons_O, nth_add_row by lia. reflexivity.
      * rewrite !entry_cons_S, IH by (auto; simpl in Hlen; lia).
        rewrite !Nat.sub_0_r. reflexivity.
Qed.

(** The entries of [M[r:, c:] += Q], for a block that fits. *)
Lemma entry_add_block (r c m w : nat) (M Q : matrix) (i j : nat) :
  rows_of_length m M -> rows_of_length w Q -> (c + w <= m)%nat ->
  (r + List.length Q <= List.length M)%nat ->
  entry (add_block r c M Q) i j = entry M i j + shifted r c Q i j.
Proof.
  revert M i; induction r as [|r IH]; intros M i HM HQ Hfit Hlen.
  - simpl add_block. eapply entry_add_rows; eauto.
  - destruct HM as [|row M Hrow HM]; [simpl in Hlen; lia|].
    simpl add_block. destruct i as [|i].
    + rewrite !entry_cons_O. unfold shifted. simpl. lra.
    + rewrite !entry_cons_S, IH by (auto; simpl in Hlen; lia).
      unfold shifted. simpl. reflexivity.
Qed.

Lemma entry_zeros (n m i j : nat) : entry (zeros n m) i j = 0.
Proof.
  unfold entry, zeros.
  destruct (Nat.lt_ge_cases i n) as [Hi|Hi].
  - rewrite (nth_indep _ [] (repeat 0 m)) by (now rewrite repeat_length).
    rewrite nth_repeat. apply nth_repeat.
  - rewrite (nth_overflow (repeat (repeat 0 m) n))
      by (now rewrite repeat_length).
    apply nth_nil_R.
Qed.

Lemma nth_scale (x : R) (v : vector) (j : nat) :
  nth j (map (Rmult x) v) 0 = x * nth j v 0.
Proof.
  revert j; induction v as [|y v IH]; intros [|j]; simpl; auto; lra.
Qed.

Lemma entry_mscale (x : R) (M : matrix) (i j : nat) :
  entry (mscale x M) i j = x * entry M i j.
Proof.
  revert i; induction M as [|row M IH]; intros i.
  - change (mscale x []) with (@nil vector). rewrite !entry_nil. lra.
  - change (mscale x (row :: M)) with (map (Rmult x) row :: mscale x M).
    destruct i as [|i].
    + rewrite !entry_cons_O. apply nth_scale.
    + rewrite !entry_cons_S. apply IH.
Qed.

Lemma nth_vadd (u v : vector) (j : nat) :
  List.length u = List.length v ->
  nth j (vadd u v) 0 = nth j u 0 + nth j v 0.
Proof.
  revert v j; induction u as [|x u IH]; intros [|y v] j H; simpl in *;
    try discriminate.
  - destruct j; lra.
  - destruct j; [lra|]. apply IH. lia.
Qed.

Lemma entry_madd (m : nat) (M1 M2 : matrix) (i j : nat) :
  rows_of_length m M1 -> rows_of_length m M2 ->
  List.length M1 = List.length M2 ->
  entry (madd M1 M2) i j = entry M1 i j + entry M2 i j.
Proof.
  unfold rows_of_length. intros H1; revert M2 i.
  induction H1 as [|u M1 Hu H1 IH]; intros M2 i H2 Hlen.
  - destruct M2; [|discriminate]. simpl. rewrite entry_nil. lra.
  - destruct H2 as [|v M2 Hv H2]; [discriminate|].
    simpl madd. destruct i as [|i].
    + rewrite !entry_cons_O. apply nth_vadd. congruence.
    + rewrite !entry_cons_S. apply IH; auto.
Qed.

Lemma nth_halve (v : vector) (j : nat) : nth j (halve v) 0 = nth j v 0 / 2.
Proof.
  unfold halve. revert j; induction v as [|y v IH]; intros [|j]; simpl;
    auto; lra.
Qed.

Lemma entry_halve_but_last (M : matrix) (i j : nat) :
  entry (halve_but_last M) i j
  = (if (i + 1 <? List.length M)%nat then / 2 else 1) * entry M i j.
Proof.
  revert i; induction M as [|row M IH]; intros i.
  - simpl. rewrite entry_nil. lra.
  - destruct M as [|row' M].
    + simpl halve_but_last.
      replace (i + 1 <? List.length [row])%nat with false
        by (symmetry; apply Nat.ltb_ge; simpl; lia).
      lra.
    + change (halve_but_last (row :: row' :: M))
        with (halve row :: halve_but_last (row' :: M)).
      destruct i as [|i].
      * rewrite !entry_cons_O, nth_halve. simpl. lra.
      * rewrite !entry_cons_S, IH.
        replace (S i + 1 <? List.length (row :: row' :: M))%nat
          with (i + 1 <? List.length (row' :: M))%nat; [reflexivity|].
        change (List.length (row :: row' :: M))
          with (S (S (List.length M))).
        change (List.length (row' :: M)) with (S (List.length M)).
        destruct (Nat.ltb_spec (i + 1) (S (List.length M)));
          destruct (Nat.ltb_spec (S i + 1) (S (S (List.length M))));
          auto; lia.
Qed.

(** The entries after [P[1:-1, :] /= 2]. *)
Lemma entry_halve_interior (M : matrix) (i j : nat) :
  entry (halve_interior M) i j
  = row_weight (List.length M) i * entry M i j.
Proof.
  unfold row_weight. destruct M as [|row M].
  - simpl. rewrite entry_nil. lra.
  - simpl halve_interior. destruct i as [|i].
    + rewrite !entry_cons_O. simpl. lra.
    + rewrite !entry_cons_S, entry_halve_but_last.
      replace ((1 <=? S i)%nat && (S i + 1 <? List.length (row :: M))%nat)
        with (i + 1 <? List.length M)%nat; [reflexivity|].
      change (1 <=? S i)%nat with true.
      change (List.length (row :: M)) with (S (List.length M)).
      rewrite Bool.andb_true_l.
      destruct (Nat.ltb_spec (i + 1) (List.length M));
        destruct (Nat.ltb_spec (S i + 1) (S (List.length M))); auto; lia.
Qed.

(** Outside an [n]-by-[m] array every entry reads zero. *)
Lemma entry_outside (n m : nat) (M : matrix) (i j : nat) :
  shape n m M -> (n <= i)%nat \/ (m <= j)%nat -> entry M i j = 0.
Proof.
  intros [Hlen Hrows] Hout. unfold entry.
  destruct (Nat.lt_ge_cases i n) as [Hi|Hi].
  - destruct Hout as [Hout|Hout]; [lia|].
    apply nth_overflow.
    unfold rows_of_length in Hrows. rewrite Forall_forall in Hrows.
    rewrite (Hrows (nth i M [])); auto. apply nth_In. lia.
  - rewrite (nth_overflow M) by lia. apply nth_nil_R.
Qed.

End Entries.

(** * The recursion of [compute_P], entry by entry *)

Section Recurrence.

(** Shape and row sums survive a recursive step for every real [p]. *)
Lemma step_unit_rows (p : R) (k : nat) (Q : matrix) :
  shape (S k) (S k) Q ->
  Forall (fun row => vsum row = 1) Q ->
  let n := S (S k) in
  let A := add_block 1 1 (add_block 0 0 (zeros n n) Q) Q in
  let B := add_block 1 0 (add_block 0 1 (zeros n n) Q) Q in
  let P := halve_interior (madd (mscale p A) (mscale (1 - p) B)) in
  shape n n P /\ Forall (fun row => vsum row = 1) P.
Proof.
  intros [HlenQ HrowsQ] HsumQ n A B.
  assert (HsQ : map vsum Q = repeat 1 (S k))
    by (rewrite unit_sums, HlenQ; auto).
  assert (HrA : rows_of_length n A)
    by (unfold A; repeat apply add_block_rows; apply zeros_rows).
  assert (HrB : rows_of_length n B)
    by (unfold B; repeat apply add_block_rows; apply zeros_rows).
  assert (HlA : List.length A = n)
    by (unfold A; rewrite !add_block_length; apply zeros_length).
  assert (HlB : List.length B = n)
    by (unfold B; rewrite !add_block_length; apply zeros_length).
  assert (HsA : map vsum A = (0 + 1) :: repeat (0 + 1 + 1) k ++ [0 + 1]).
  { unfold A.
    rewrite (add_block_sums 1 1 n (S k))
      by (auto using add_block_rows, zeros_rows; unfold n; lia).
    rewrite (add_block_sums 0 0 n (S k))
      by (auto using add_block_rows, zeros_rows; unfold n; lia).
    rewrite zeros_sums, HsQ. apply block_sums_closed. }
  assert (HsB : map vsum B = (0 + 1) :: repeat (0 + 1 + 1) k ++ [0 + 1]).
  { unfold B.
    rewrite (add_block_sums 1 0 n (S k))
      by (auto using add_block_rows, zeros_rows; unfold n; lia).
    rewrite (add_block_sums 0 1 n (S k))
      by (auto using add_block_rows, zeros_rows; unfold n; lia).
    rewrite zeros_sums, HsQ. apply block_sums_closed. }
  set (P0 := madd (mscale p A) (mscale (1 - p) B)).
  assert (HrP : rows_of_length n P0)
    by (unfold P0; apply madd_rows; apply mscale_rows; auto).
  assert (HlP : List.length P0 = n)
    by (unfold P0; rewrite madd_length; rewrite !mscale_length; congruence).
  assert (HsP : map vsum P0
                = (p * (0 + 1) + (1 - p) * (0 + 1))
                    :: repeat (p * (0 + 1 + 1) + (1 - p) * (0 + 1 + 1)) k
                    ++ [p * (0 + 1) + (1 - p) * (0 + 1)]).
  { unfold P0.
    rewrite (madd_sums n) by (apply mscale_rows; auto).
    rewrite !mscale_sums, HsA, HsB, vadd_map.
    simpl. now rewrite map_app, map_repeat. }
  intros P. unfold P, shape. repeat split.
  - now rewrite halve_interior_length.
  - unfold rows_of_length. apply halve_interior_Forall; auto.
    intros row Hrow. now rewrite halve_length.
  - apply (Forall_map vsum (fun x => x = 1)).
    destruct P0 as [|r0 P']; [discriminate|].
    simpl in HsP. injection HsP as Hr0 HsP'.
    simpl. rewrite (halve_but_last_sums _ _ _ _ HsP').
    constructor; [lra|].
    apply Forall_app. split.
    + apply Forall_repeat. lra.
    + constructor; [lra | constructor].
Qed.

Lemma compute_P_unit_rows (fuel : nat) (p : R) (N : Z) (P : matrix) :
  compute_P fuel p N = Some P ->
  shape (Z.to_nat N) (Z.to_nat N) P /\ Forall (fun row => vsum row = 1) P.
Proof.
  revert N P; induction fuel as [|fuel IH]; intros N P H; [discriminate|].
  rewrite compute_P_unfold in H.
  destruct (Z.eqb_spec N 2) as [->|Hne].
  - injection H as <-. unfold shape, rows_of_length. simpl.
    repeat split; repeat apply Forall_cons; auto; simpl; lra.
  - destruct (compute_P fuel p (N - 1)) as [Q|] eqn:HQ; [|discriminate].
    pose proof (compute_P_some_ge _ _ _ _ HQ) as Hge.
    apply IH in HQ. destruct HQ as [HshQ HsumQ].
    replace (Z.to_nat (N - 1)) with (S (Z.to_nat (N - 2))) in HshQ by lia.
    replace (Z.to_nat N) with (S (S (Z.to_nat (N - 2)))) in H |- * by lia.
    injection H as <-. now apply step_unit_rows.
Qed.

(** The Rouwenhorst recurrence on entries: all four placements of [Q],
    weighted by [p] and [1 - p], interior rows halved. *)
Lemma step_entries (p : R) (k : nat) (Q : matrix) (i j : nat) :
  shape (S k) (S k) Q ->
  let n := S (S k) in
  let A := add_block 1 1 (add_block 0 0 (zeros n n) Q) Q in
  let B := add_block 1 0 (add_block 0 1 (zeros n n) Q) Q in
  entry (halve_interior (madd (mscale p A) (mscale (1 - p) B))) i j
  = row_weight n i
    * (p * (shifted 0 0 Q i j + shifted 1 1 Q i j)
       + (1 - p) * (shifted 0 1 Q i j + shifted 1 0 Q i j)).
Proof.
  intros [HlenQ HrowsQ] n A B.
  assert (HrA : rows_of_length n A)
    by (unfold A; repeat apply add_block_rows; apply zeros_rows).
  assert (HrB : rows_of_length n B)
    by (unfold B; repeat apply add_block_rows; apply zeros_rows).
  assert (HlA : List.length A = n)
    by (unfold A; rewrite !add_block_length; apply zeros_length).
  assert (HlB : List.length B = n)
    by (unfold B; rewrite !add_block_length; apply zeros_length).
  rewrite entry_halve_interior.
  rewrite madd_length by (rewrite !mscale_length; congruence).
  rewrite mscale_length, HlA.
  rewrite (entry_madd n)
    by (auto using mscale_rows; rewrite !mscale_length; congruence).
  rewrite !entry_mscale. unfold A, B.
  rewrite (entry_add_block 1 1 n (S k))
    by (auto using add_block_rows, zeros_rows;
        rewrite ?add_block_length, ?zeros_length; unfold n; lia).
  rewrite (entry_add_block 0 0 n (S k))
    by (auto using add_block_rows, zeros_rows;
        rewrite ?add_block_length, ?zeros_length; unfold n; lia).
  rewrite (entry_add_block 1 0 n (S k))
    by (auto using add_block_rows, zeros_rows;
        rewrite ?add_block_length, ?zeros_length; unfold n; lia).
  rewrite (entry_add_block 0 1 n (S k))
    by (auto using add_block_rows, zeros_rows;
        rewrite ?add_block_length, ?zeros_length; unfold n; lia).
  rewrite entry_zeros. ring.
Qed.

(** The recursion needs every one of its [N - 1] frames. *)
Lemma compute_P_shallow (fuel : nat) (p : R) (N : Z) :
  (2 <= N)%Z -> (fuel < depth N)%nat -> compute_P fuel p N = None.
Proof.
  unfold depth. revert N; induction fuel as [|fuel IH]; intros N HN Hfuel;
    [reflexivity|].
  rewrite compute_P_unfold.
  destruct (Z.eqb_spec N 2) as [->|Hne]; [simpl in Hfuel; lia|].
  rewrite IH by lia. reflexivity.
Qed.

End Recurrence.

(** * Symmetry and corners of the transition matrix *)

Section Centro.

Variable m : nat.
Variable Q : matrix.
Hypothesis Hsh : shape m m Q.
Hypothesis Hc : centrosymmetric m Q.

Ltac flip_case :=
  first [ reflexivity
        | apply (entry_outside m m Q _ _ Hsh); lia
        | symmetry; apply (entry_outside m m Q _ _ Hsh); lia
        | rewrite Hc by lia; f_equal; lia ].

Lemma shifted_00_flip (i j : nat) :
  (i <= m)%nat -> (j <= m)%nat ->
  shifted 0 0 Q (m - i) (m - j) = shifted 1 1 Q i j.
Proof.
  intros Hi Hj. unfold shifted.
  change (0 <=? m - i)%nat with true. change (0 <=? m - j)%nat with true.
  rewrite !Nat.sub_0_r.
  destruct (Nat.leb_spec 1 i); destruct (Nat.leb_spec 1 j); simpl andb;
    cbv iota; flip_case.
Qed.

Lemma shifted_11_flip (i j : nat) :
  (i <= m)%nat -> (j <= m)%nat ->
  shifted 1 1 Q (m - i) (m - j) = shifted 0 0 Q i j.
Proof.
  intros Hi Hj. unfold shifted.
  change (0 <=? i)%nat with true. change (0 <=? j)%nat with true.
  rewrite !Nat.sub_0_r.
  destruct (Nat.leb_spec 1 (m - i)); destruct (Nat.leb_spec 1 (m - j));
    simpl andb; cbv iota; flip_case.
Qed.

Lemma shifted_01_flip (i j : nat) :
  (i <= m)%nat -> (j <= m)%nat ->
  shifted 0 1 Q (m - i) (m - j) = shifted 1 0 Q i j.
Proof.
  intros Hi Hj. unfold shifted.
  change (0 <=? m - i)%nat with true. change (0 <=? j)%nat with true.
  rewrite !Nat.sub_0_r.
  destruct (Nat.leb_spec 1 i); destruct (Nat.leb_spec 1 (m - j));
    simpl andb; cbv iota; flip_case.
Qed.

Lemma shifted_10_flip (i j : nat) :
  (i <= m)%nat -> (j <= m)%nat ->
  shifted 1 0 Q (m - i) (m - j) = shifted 0 1 Q i j.
Proof.
  intros Hi Hj. unfold shifted.
  change (0 <=? i)%nat with true. change (0 <=? m - j)%nat with true.
  rewrite !Nat.sub_0_r.
  destruct (Nat.leb_spec 1 (m - i)); destruct (Nat.leb_spec 1 j);
    simpl andb; cbv iota; flip_case.
Qed.

End Centro.

Lemma row_weight_flip (n i : nat) :
  (i < n)%nat -> row_weight n (n - 1 - i) = row_weight n i.
Proof.
  intros Hi. unfold row_weight.
  destruct (Nat.leb_spec 1 i); destruct (Nat.ltb_spec (i + 1) n);
    destruct (Nat.leb_spec 1 (n - 1 - i));
    destruct (Nat.ltb_spec (n - 1 - i + 1) n); simpl; auto; lia.
Qed.

Lemma step_centrosymmetric (p : R) (k : nat) (Q : matrix) :
  shape (S k) (S k) Q -> centrosymmetric (S k) Q ->
  let n := S (S k) in
  let A := add_block 1 1 (add_block 0 0 (zeros n n) Q) Q in
  let B := add_block 1 0 (add_block 0 1 (zeros n n) Q) Q in
  centrosymmetric n (halve_interior (madd (mscale p A) (mscale (1 - p) B))).
Proof.
  intros Hsh Hc n A B i j Hi Hj. unfold A, B, n in *. clear A B n.
  rewrite !step_entries by exact Hsh.
  rewrite row_weight_flip by exact Hi.
  replace (S (S k) - 1 - i)%nat with (S k - i)%nat by lia.
  replace (S (S k) - 1 - j)%nat with (S k - j)%nat by lia.
  rewrite (shifted_00_flip _ _ Hsh Hc), (shifted_11_flip _ _ Hsh Hc),
    (shifted_01_flip _ _ Hsh Hc), (shifted_10_flip _ _ Hsh Hc) by lia.
  ring.
Qed.

Lemma compute_P_centrosymmetric (fuel : nat) (p : R) (N : Z) (P : matrix) :
  compute_P fuel p N = Some P -> centrosymmetric (Z.to_nat N) P.
Proof.
  revert N P; induction fuel as [|fuel IH]; intros N P H; [discriminate|].
  rewrite compute_P_unfold in H.
  destruct (Z.eqb_spec N 2) as [->|Hne].
  - injection H as <-. intros i j Hi Hj.
    change (Z.to_nat 2) with 2%nat in *.
    destruct i as [|[|i]]; destruct j as [|[|j]]; try lia; reflexivity.
  - destruct (compute_P fuel p (N - 1)) as [Q|] eqn:HQ; [|discriminate].
    pose proof (compute_P_some_ge _ _ _ _ HQ) as Hge.
    pose proof (proj1 (compute_P_unit_rows _ _ _ _ HQ)) as Hsh.
    apply IH in HQ.
    replace (Z.to_nat (N - 1)) with (S (Z.to_nat (N - 2))) in HQ, Hsh by lia.
    replace (Z.to_nat N) with (S (S (Z.to_nat (N - 2)))) in H |- * by lia.
    injection H as <-. now apply step_centrosymmetric.
Qed.

(** The two corners of the first row. *)
Lemma compute_P_first_row_corners (fuel : nat) (p : R) (N : Z) (P : matrix) :
  compute_P fuel p N = Some P ->
  entry P 0 0 = p ^ Z.to_nat (N - 1)
  /\ entry P 0 (Z.to_nat N - 1) = (1 - p) ^ Z.to_nat (N - 1).
Proof.
  revert N P; induction fuel as [|fuel IH]; intros N P H; [discriminate|].
  rewrite compute_P_unfold in H.
  destruct (Z.eqb_spec N 2) as [->|Hne].
  - injection H as <-. simpl. unfold entry. simpl. lra.
  - destruct (compute_P fuel p (N - 1)) as [Q|] eqn:HQ; [|discriminate].
    pose proof (compute_P_some_ge _ _ _ _ HQ) as Hge.
    pose proof (proj1 (compute_P_unit_rows _ _ _ _ HQ)) as Hsh.
    destruct (IH _ _ HQ) as [H00 H0m].
    replace (Z.to_nat (N - 1 - 1)) with (Z.to_nat (N - 2)) in * by lia.
    replace (Z.to_nat (N - 1)) with (S (Z.to_nat (N - 2))) in * by lia.
    replace (Z.to_nat N) with (S (S (Z.to_nat (N - 2)))) in H |- * by lia.
    set (k := Z.to_nat (N - 2)) in *.
    cbv zeta in H.
    match type of H with Some ?t = _ => set (P' := t) in H end.
    injection H as <-. unfold P'. rewrite !step_entries by exact Hsh.
    unfold row_weight, shifted.
    replace (S (S k) - 1)%nat with (S k) by lia.
    replace (S k - 1)%nat with k in * by lia.
    simpl Nat.leb. simpl andb. cbv iota.
    rewrite !Nat.sub_0_r.
    replace (S k - 1)%nat with k by lia.
    rewrite H00, H0m.
    rewrite (entry_outside (S k) (S k) Q 0 (S k) Hsh) by lia.
    simpl pow. split; ring.
Qed.

Lemma rouwenhorst_returns (fuel : nat) (N : Z) (mu rho sigma : R) :
  (2 <= N)%Z -> (depth N <= fuel)%nat ->
  exists s P,
    compute_P fuel ((1 + rho) / 2) N = Some P
    /\ rouwenhorst fuel N mu rho sigma = Some (s, P).
Proof.
  intros HN Hfuel.
  destruct (compute_P_returns fuel ((1 + rho) / 2) N HN Hfuel) as [P HP].
  destruct (rouwenhorst_of_compute_P fuel N mu rho sigma P HP) as [s [Hs _]].
  eauto.
Qed.

(** * Further properties of [rouwenhorst] *)

(** X2.  The recurrence [compute_P] implements, entry by entry: for
    [N >= 3] the matrix [P] of size [N] is built from the matrix [Q] of
    size [N - 1] by
    [P[i][j] = c_i * (p * (Q[i][j] + Q[i-1][j-1])
                      + (1-p) * (Q[i][j-1] + Q[i-1][j]))],
    entries of [Q] outside its range reading zero, [c_i = 1/2] on interior
    rows and [1] on the first and the last. *)
Theorem compute_P_recurrence (fuel : nat) (p : R) (N : Z) :
  (3 <= N)%Z -> (depth N <= S fuel)%nat ->
  exists Q P,
    compute_P fuel p (N - 1) = Some Q
    /\ compute_P (S fuel) p N = Some P
    /\ forall i j,
        entry P i j
        = row_weight (Z.to_nat N) i
          * (p * (shifted 0 0 Q i j + shifted 1 1 Q i j)
             + (1 - p) * (shifted 0 1 Q i j + shifted 1 0 Q i j)).
Proof.
  intros HN Hfuel.
  destruct (compute_P_returns fuel p (N - 1)) as [Q HQ];
    [lia | unfold depth in *; lia |].
  pose proof (proj1 (compute_P_unit_rows _ _ _ _ HQ)) as Hsh.
  exists Q. eexists. split; [exact HQ|]. split.
  - rewrite compute_P_unfold, HQ.
    destruct (Z.eqb_spec N 2) as [Heq|_]; [lia | reflexivity].
  - intros i j. cbv zeta.
    replace (Z.to_nat (N - 1)) with (S (Z.to_nat (N - 2))) in Hsh by lia.
    replace (Z.to_nat N) with (S (S (Z.to_nat (N - 2)))) by lia.
    now rewrite step_entries.
Qed.

Lemma compute_P_recurrence_witness :
  (3 <= 3)%Z /\ (depth 3 <= 2)%nat /\
  exists Q P,
    compute_P 1 0.75 (3 - 1) = Some Q
    /\ compute_P 2 0.75 3 = Some P
    /\ forall i j,
        entry P i j
        = row_weight (Z.to_nat 3) i
          * (0.75 * (shifted 0 0 Q i j + shifted 1 1 Q i j)
             + (1 - 0.75) * (shifted 0 1 Q i j + shifted 1 0 Q i j)).
Proof.
  assert (H1 : (3 <= 3)%Z) by lia.
  assert (H2 : (depth 3 <= 2)%nat) by (vm_compute; lia).
  split; [exact H1|]. split; [exact H2|].
  exact (compute_P_recurrence 1 0.75 3 H1 H2).
Defined.

(** X3.  The returned matrix is centrosymmetric, for every [rho]:
    [P[i][j] = P[N-1-i][N-1-j]]; moving up from state [i] is as likely as
    moving down from the mirrored state. *)
Theorem rouwenhorst_centrosymmetric
        (fuel : nat) (N : Z) (mu rho sigma : R) :
  (2 <= N)%Z -> (depth N <= fuel)%nat ->
  exists s P,
    rouwenhorst fuel N mu rho sigma = Some (s, P)
    /\ forall i j, (i < Z.to_nat N)%nat -> (j < Z.to_nat N)%nat ->
                   entry P i j
                   = entry P (Z.to_nat N - 1 - i) (Z.to_nat N - 1 - j).
Proof.
  intros HN Hfuel.
  destruct (rouwenhorst_returns fuel N mu rho sigma HN Hfuel)
    as [s [P [HP Hs]]].
  exists s, P. split; [exact Hs|].
  exact (compute_P_centrosymmetric _ _ _ _ HP).
Qed.

Lemma rouwenhorst_centrosymmetric_witness :
  (2 <= 9)%Z /\ (depth 9 <= 8)%nat /\
  exists s P,
    rouwenhorst 8 9 0.0 0.53 0.296 = Some (s, P)
    /\ forall i j, (i < Z.to_nat 9)%nat -> (j < Z.to_nat 9)%nat ->
                   entry P i j
                   = entry P (Z.to_nat 9 - 1 - i) (Z.to_nat 9 - 1 - j).
Proof.
  assert (H1 : (2 <= 9)%Z) by lia.
  assert (H2 : (depth 9 <= 8)%nat) by (vm_compute; lia).
  split; [exact H1|]. split; [exact H2|].
  exact (rouwenhorst_centrosymmetric 8 9 0.0 0.53 0.296 H1 H2).
Defined.

(** X4.  The corners of the returned matrix: staying in the lowest or in
    the highest state has probability [p^(N-1)], jumping from one extreme
    state to the other has probability [(1-p)^(N-1)], [p = (1+rho)/2]. *)
Theorem rouwenhorst_corners (fuel : nat) (N : Z) (mu rho sigma : R) :
  (2 <= N)%Z -> (depth N <= fuel)%nat ->
  let p := (1 + rho) / 2 in
  let n := Z.to_nat N in
  exists s P,
    rouwenhorst fuel N mu rho sigma = Some (s, P)
    /\ entry P 0 0 = p ^ (n - 1)
    /\ entry P (n - 1) (n - 1) = p ^ (n - 1)
    /\ entry P 0 (n - 1) = (1 - p) ^ (n - 1)
    /\ entry P (n - 1) 0 = (1 - p) ^ (n - 1).
Proof.
  intros HN Hfuel p n.
  destruct (rouwenhorst_returns fuel N mu rho sigma HN Hfuel)
    as [s [P [HP Hs]]].
  destruct (compute_P_first_row_corners _ _ _ _ HP) as [H00 H0m].
  pose proof (compute_P_centrosymmetric _ _ _ _ HP) as Hc.
  fold p in H00, H0m. fold n in H0m, Hc.
  replace (Z.to_nat (N - 1)) with (n - 1)%nat in H00, H0m
    by (unfold n; lia).
  assert (Hn : (2 <= n)%nat) by (unfold n; lia).
  exists s, P. split; [exact Hs|]. repeat split; auto.
  - rewrite <- H00. rewrite (Hc 0%nat 0%nat) by lia.
    now rewrite !Nat.sub_0_r.
  - rewrite <- H0m. rewrite (Hc 0%nat (n - 1)%nat) by lia.
    f_equal; lia.
Qed.

Lemma rouwenhorst_corners_witness :
  (2 <= 3)%Z /\ (depth 3 <= 2)%nat /\
  exists s P,
    rouwenhorst 2 3 0 0.5 1 = Some (s, P)
    /\ entry P 0 0 = ((1 + 0.5) / 2) ^ (Z.to_nat 3 - 1)
    /\ entry P (Z.to_nat 3 - 1) (Z.to_nat 3 - 1)
       = ((1 + 0.5) / 2) ^ (Z.to_nat 3 - 1)
    /\ entry P 0 (Z.to_nat 3 - 1) = (1 - (1 + 0.5) / 2) ^ (Z.to_nat 3 - 1)
    /\ entry P (Z.to_nat 3 - 1) 0 = (1 - (1 + 0.5) / 2) ^ (Z.to_nat 3 - 1).
Proof.
  assert (H1 : (2 <= 3)%Z) by lia.
  assert (H2 : (depth 3 <= 2)%nat) by (vm_compute; lia).
  split; [exact H1|]. split; [exact H2|].
  exact (rouwenhorst_corners 2 3 0 0.5 1 H1 H2).
Defined.

(** X5.  The recursion of [compute_P] is exactly [N - 1] frames deep: with
    fewer frames allowed no matrix comes back, and every larger allowance
    gives the matrix that [N - 1] frames give. *)
Theorem compute_P_depth_exact (p : R) (N : Z) :
  (2 <= N)%Z ->
  (forall fuel, (fuel < depth N)%nat -> compute_P fuel p N = None)
  /\ (forall fuel, (depth N <= fuel)%nat ->
        compute_P fuel p N = compute_P (depth N) p N)
  /\ exists P, compute_P (depth N) p N = Some P.
Proof.
  intros HN. split; [|split].
  - intros fuel Hfuel. now apply compute_P_shallow.
  - intros fuel Hfuel.
    destruct (compute_P_returns (depth N) p N HN (Nat.le_refl _)) as [P HP].
    rewrite HP. eapply compute_P_fuel_mono; eauto.
  - apply compute_P_returns; auto.
Qed.

Lemma compute_P_depth_exact_witness :
  (2 <= 9)%Z /\
  compute_P 7 0.765 9 = None /\
  compute_P 100 0.765 9 = compute_P (depth 9) 0.765 9.
Proof.
  assert (H1 : (2 <= 9)%Z) by lia.
  split; [exact H1|]. split.
  - apply (proj1 (compute_P_depth_exact 0.765 9 H1)). vm_compute. lia.
  - apply (proj1 (proj2 (compute_P_depth_exact 0.765 9 H1))).
    vm_compute. lia.
Defined.

(** The half-width is the shock deviation times a positive factor. *)
Lemma spread_scale (N : Z) (rho sigma : R) :
  (2 <= N)%Z -> Rabs rho < 1 ->
  exists c, 0 < c /\ spread N rho sigma = c * sigma.
Proof.
  intros HN Hrho.
  exists (sqrt (IZR (N - 1)) / sqrt (1 - rho ^ 2)). split.
  - apply Rdiv_lt_0_compat; apply sqrt_lt_R0.
    + apply IZR_lt. lia.
    + now apply one_minus_sq_pos.
  - unfold spread, Rdiv. ring.
Qed.

Lemma rouwenhorst_grid (fuel : nat) (N : Z) (mu rho sigma : R) :
  (2 <= N)%Z -> Rabs rho < 1 -> (depth N <= fuel)%nat ->
  exists s P,
    rouwenhorst fuel N mu rho sigma = Some (s, P)
    /\ evenly_spaced (mu - spread N rho sigma) (mu + spread N rho sigma)
                     (Z.to_nat N) s.
Proof.
  intros HN Hrho Hfuel.
  destruct (rouwenhorst_returns fuel N mu rho sigma HN Hfuel)
    as [s [P [_ Hs]]].
  exists s, P. split; [exact Hs|].
  exact (rouwenhorst_states _ _ _ _ _ _ _ Hrho Hs).
Qed.

(** X6.  The state grid is symmetric about the mean: for [N >= 2] and
    [|rho| < 1] the states of index [i] and [N-1-i] are finite and add up
    to [2 * mu]. *)
Theorem rouwenhorst_states_symmetric
        (fuel : nat) (N : Z) (mu rho sigma : R) :
  (2 <= N)%Z -> Rabs rho < 1 -> (depth N <= fuel)%nat ->
  exists s P,
    rouwenhorst fuel N mu rho sigma = Some (s, P)
    /\ forall i, (i < Z.to_nat N)%nat ->
         exists a b,
           nth i s NaN = Finite a
           /\ nth (Z.to_nat N - 1 - i) s NaN = Finite b
           /\ a + b = 2 * mu.
Proof.
  intros HN Hrho Hfuel.
  destruct (rouwenhorst_grid fuel N mu rho sigma HN Hrho Hfuel)
    as [s [P [Hs Hev]]].
  exists s, P. split; [exact Hs|]. intros i Hi.
  do 2 eexists. split; [|split].
  - apply (evenly_spaced_nth _ _ _ _ _ Hev Hi).
  - apply (evenly_spaced_nth _ _ _ _ _ Hev). lia.
  - set (n := Z.to_nat N) in *.
    assert (Hn : INR (n - 1) <> 0) by (apply not_0_INR; unfold n; lia).
    rewrite (minus_INR (n - 1) i) by lia.
    field. exact Hn.
Qed.

Lemma rouwenhorst_states_symmetric_witness :
  (2 <= 3)%Z /\ Rabs 0.5 < 1 /\ (depth 3 <= 2)%nat /\
  exists s P,
    rouwenhorst 2 3 7 0.5 1 = Some (s, P)
    /\ forall i, (i < Z.to_nat 3)%nat ->
         exists a b,
           nth i s NaN = Finite a
           /\ nth (Z.to_nat 3 - 1 - i) s NaN = Finite b
           /\ a + b = 2 * 7.
Proof.
  assert (H1 : (2 <= 3)%Z) by lia.
  assert (H2 : Rabs 0.5 < 1) by (apply Rabs_def1; lra).
  assert (H3 : (depth 3 <= 2)%nat) by (vm_compute; lia).
  split; [exact H1|]. split; [exact H2|]. split; [exact H3|].
  exact (rouwenhorst_states_symmetric 2 3 7 0.5 1 H1 H2 H3).
Defined.

(** X7.  Consecutive states differ by the constant step [2f / (N-1)],
    [f] the half-width; the grid is strictly increasing when [sigma > 0]
    and strictly decreasing when [sigma < 0] (a negative [sigma] is not
    rejected, it reverses the grid). *)
Theorem rouwenhorst_states_monotone
        (fuel : nat) (N : Z) (mu rho sigma : R) :
  (2 <= N)%Z -> Rabs rho < 1 -> (depth N <= fuel)%nat ->
  exists s P,
    rouwenhorst fuel N mu rho sigma = Some (s, P)
    /\ forall i, (i + 1 < Z.to_nat N)%nat ->
         exists a b,
           nth i s NaN = Finite a
           /\ nth (i + 1) s NaN = Finite b
           /\ b - a = 2 * spread N rho sigma / INR (Z.to_nat N - 1)
           /\ (0 < sigma -> a < b)
           /\ (sigma < 0 -> b < a).
Proof.
  intros HN Hrho Hfuel.
  destruct (rouwenhorst_grid fuel N mu rho sigma HN Hrho Hfuel)
    as [s [P [Hs Hev]]].
  destruct (spread_scale N rho sigma HN Hrho) as [c [Hc Hf]].
  exists s, P. split; [exact Hs|]. intros i Hi.
  set (n := Z.to_nat N) in *. set (f := spread N rho sigma) in *.
  assert (Hn : 0 < INR (n - 1)) by (apply lt_0_INR; unfold n; lia).
  assert (Hstep : mu - f + INR (i + 1) * ((mu + f - (mu - f)) / INR (n - 1))
                  - (mu - f + INR i * ((mu + f - (mu - f)) / INR (n - 1)))
                  = 2 * f / INR (n - 1)).
  { rewrite plus_INR. simpl INR. field. lra. }
  do 2 eexists. split; [|split; [|split; [|split]]].
  - apply (evenly_spaced_nth _ _ _ _ _ Hev). lia.
  - apply (evenly_spaced_nth _ _ _ _ _ Hev Hi).
  - exact Hstep.
  - intros Hsigma.
    assert (0 < 2 * f / INR (n - 1)); [|lra].
    apply Rdiv_lt_0_compat; auto. rewrite Hf. nra.
  - intros Hsigma.
    assert (0 < 2 * (- f) / INR (n - 1)).
    { apply Rdiv_lt_0_compat; auto. rewrite Hf. nra. }
    assert (2 * - f / INR (n - 1) = - (2 * f / INR (n - 1)))
      by (field; lra).
    lra.
Qed.

Lemma rouwenhorst_states_monotone_witness :
  (2 <= 3)%Z /\ Rabs 0.5 < 1 /\ (depth 3 <= 2)%nat /\
  exists s P,
    rouwenhorst 2 3 0 0.5 (-1) = Some (s, P)
    /\ forall i, (i + 1 < Z.to_nat 3)%nat ->
         exists a b,
           nth i s NaN = Finite a
           /\ nth (i + 1) s NaN = Finite b
           /\ b - a = 2 * spread 3 0.5 (-1) / INR (Z.to_nat 3 - 1)
           /\ (0 < -1 -> a < b)
           /\ (-1 < 0 -> b < a).
Proof.
  assert (H1 : (2 <= 3)%Z) by lia.
  assert (H2 : Rabs 0.5 < 1) by (apply Rabs_def1; lra).
  assert (H3 : (depth 3 <= 2)%nat) by (vm_compute; lia).
  split; [exact H1|]. split; [exact H2|]. split; [exact H3|].
  exact (rouwenhorst_states_monotone 2 3 0 0.5 (-1) H1 H2 H3).
Defined.

(** X8.  Without shocks ([sigma = 0], [|rho| < 1]) the grid collapses:
    every one of the [N] states equals the mean [mu]. *)
Theorem rouwenhorst_states_degenerate
        (fuel : nat) (N : Z) (mu rho : R) :
  (2 <= N)%Z -> Rabs rho < 1 -> (depth N <= fuel)%nat ->
  exists s P,
    rouwenhorst fuel N mu rho 0 = Some (s, P)
    /\ List.length s = Z.to_nat N
    /\ Forall (fun x => x = Finite mu) s.
Proof.
  intros HN Hrho Hfuel.
  destruct (rouwenhorst_grid fuel N mu rho 0 HN Hrho Hfuel)
    as [s [P [Hs Hev]]].
  exists s, P. split; [exact Hs|].
  assert (Hf : spread N rho 0 = 0) by (unfold spread, Rdiv; ring).
  rewrite Hf in Hev. rewrite Hev. split.
  - now rewrite length_map, length_seq.
  - apply Forall_map, Forall_forall. intros i _. f_equal.
    unfold Rdiv. ring.
Qed.

Lemma rouwenhorst_states_degenerate_witness :
  (2 <= 3)%Z /\ Rabs 0.5 < 1 /\ (depth 3 <= 2)%nat /\
  exists s P,
    rouwenhorst 2 3 7 0.5 0 = Some (s, P)
    /\ List.length s = Z.to_nat 3
    /\ Forall (fun x => x = Finite 7) s.
Proof.
  assert (H1 : (2 <= 3)%Z) by lia.
  assert (H2 : Rabs 0.5 < 1) by (apply Rabs_def1; lra).
  assert (H3 : (depth 3 <= 2)%nat) by (vm_compute; lia).
  split; [exact H1|]. split; [exact H2|]. split; [exact H3|].
  exact (rouwenhorst_states_degenerate 2 3 7 0.5 H1 H2 H3).
Defined.

(** * Further properties of [factor_prices] *)

Section Prices.

(** A failed lookup is a [KeyError] on the key that was asked for. *)
Lemma getitem_raise (pm : params) (key : string) (e : exn) :
  getitem pm key = Raise e -> e = KeyError key.
Proof.
  induction pm as [|[k v] pm IH]; simpl; intros H.
  - congruence.
  - destruct (String.eqb k key); [discriminate | auto].
Qed.

Lemma Rpower_pos (x y : R) : 0 < Rpower x y.
Proof. unfold Rpower. apply exp_pos. Qed.

Lemma Rpower_inv_base (x y : R) : 0 < x -> Rpower (/ x) y = Rpower x (- y).
Proof.
  intros Hx. unfold Rpower. rewrite ln_Rinv by exact Hx. f_equal. ring.
Qed.

Lemma Rpower_ratio (K L y : R) :
  0 < K -> 0 < L -> Rpower (K / L) y = Rpower K y * Rpower L (- y).
Proof.
  intros HK HL. unfold Rdiv.
  rewrite <- Rpower_mult_distr by (auto; now apply Rinv_0_lt_compat).
  now rewrite Rpower_inv_base.
Qed.

Lemma Rpower_succ (x y : R) : 0 < x -> Rpower x y * x = Rpower x (y + 1).
Proof.
  intros Hx. rewrite Rpower_plus, Rpower_1 by exact Hx. reflexivity.
Qed.

(** Capital income and labour income in terms of output. *)
Lemma factor_incomes (K L a : R) :
  0 < K -> 0 < L ->
  a * Rpower (K / L) (a - 1) * K = a * production K L a
  /\ (1 - a) * Rpower (K / L) a * L = (1 - a) * production K L a.
Proof.
  intros HK HL. unfold production. rewrite !Rpower_ratio by auto. split.
  - replace (- (a - 1)) with (1 - a) by ring.
    replace (a * (Rpower K (a - 1) * Rpower L (1 - a)) * K)
      with (a * (Rpower K (a - 1) * K * Rpower L (1 - a))) by ring.
    rewrite Rpower_succ by auto.
    replace (a - 1 + 1) with a by ring. reflexivity.
  - replace ((1 - a) * (Rpower K a * Rpower L (- a)) * L)
      with ((1 - a) * (Rpower K a * (Rpower L (- a) * L))) by ring.
    rewrite Rpower_succ by auto.
    replace (- a + 1) with (1 - a) by ring. reflexivity.
Qed.

End Prices.

(** X9.  When the parameter dictionary has no key ['alpha'],
    [factor_prices] raises [KeyError] on that key before it touches [K]
    and [L], so also when [L = 0]. *)
Theorem factor_prices_missing_alpha (K L : R) (pm : params) :
  (forall a, getitem pm "alpha" <> Return a) ->
  factor_prices K L pm = Raise (KeyError "alpha").
Proof.
  intros Hno. unfold factor_prices.
  destruct (getitem pm "alpha") as [a|e] eqn:Ha.
  - now destruct (Hno a).
  - apply getitem_raise in Ha. subst e. reflexivity.
Qed.

Lemma factor_prices_missing_alpha_witness :
  (forall a, getitem [("beta"%string, 0.96)] "alpha" <> Return a) /\
  factor_prices 1 0 [("beta"%string, 0.96)] = Raise (KeyError "alpha").
Proof.
  assert (H : forall a, getitem [("beta"%string, 0.96)] "alpha" <> Return a)
    by (intros a; discriminate).
  split; [exact H|].
  exact (factor_prices_missing_alpha 1 0 [("beta"%string, 0.96)] H).
Defined.

(** X10.  Factor payments exhaust output: for [K > 0] and [L > 0] the
    returned prices satisfy [r * K = alpha * Y], [w * L = (1-alpha) * Y]
    and [r * K + w * L = Y] with [Y = K^alpha * L^(1-alpha)]. *)
Theorem factor_prices_exhaust_output (K L a : R) (pm : params) :
  getitem pm "alpha" = Return a -> 0 < K -> 0 < L ->
  exists r w,
    factor_prices K L pm = Return (PyFloat r, PyFloat w)
    /\ r * K = a * production K L a
    /\ w * L = (1 - a) * production K L a
    /\ r * K + w * L = production K L a.
Proof.
  intros Ha HK HL.
  destruct (factor_incomes K L a HK HL) as [Hr Hw].
  do 2 eexists. split; [|split; [exact Hr | split; [exact Hw|]]].
  - apply (factor_prices_positive_ratio K L a pm Ha);
      [lra | now apply ratio_pos].
  - rewrite Hr, Hw. ring.
Qed.

Lemma factor_prices_exhaust_output_witness :
  getitem param "alpha" = Return 0.5 /\ 0 < 10 /\ 0 < 2 /\
  exists r w,
    factor_prices 10 2 param = Return (PyFloat r, PyFloat w)
    /\ r * 10 = 0.5 * production 10 2 0.5
    /\ w * 2 = (1 - 0.5) * production 10 2 0.5
    /\ r * 10 + w * 2 = production 10 2 0.5.
Proof.
  assert (H0 : getitem param "alpha" = Return 0.5) by reflexivity.
  assert (H1 : 0 < 10) by lra.
  assert (H2 : 0 < 2) by lra.
  split; [exact H0|]. split; [exact H1|]. split; [exact H2|].
  exact (factor_prices_exhaust_output 10 2 0.5 param H0 H1 H2).
Defined.

(** X11.  For [K > 0], [L > 0] and [alpha] in [(0, 1)] both returned
    prices are strictly positive floats. *)
Theorem factor_prices_positive (K L a : R) (pm : params) :
  getitem pm "alpha" = Return a -> 0 < K -> 0 < L -> 0 < a < 1 ->
  exists r w,
    factor_prices K L pm = Return (PyFloat r, PyFloat w)
    /\ 0 < r /\ 0 < w.
Proof.
  intros Ha HK HL [Ha0 Ha1].
  do 2 eexists. split; [|split].
  - apply (factor_prices_positive_ratio K L a pm Ha);
      [lra | now apply ratio_pos].
  - apply Rmult_lt_0_compat; [lra | apply Rpower_pos].
  - apply Rmult_lt_0_compat; [lra | apply Rpower_pos].
Qed.

Lemma factor_prices_positive_witness :
  getitem param "alpha" = Return 0.5 /\ 0 < 10 /\ 0 < 2 /\ 0 < 0.5 < 1 /\
  exists r w,
    factor_prices 10 2 param = Return (PyFloat r, PyFloat w)
    /\ 0 < r /\ 0 < w.
Proof.
  assert (H0 : getitem param "alpha" = Return 0.5) by reflexivity.
  assert (H1 : 0 < 10) by lra.
  assert (H2 : 0 < 2) by lra.
  assert (H3 : 0 < 0.5 < 1) by lra.
  split; [exact H0|]. split; [exact H1|]. split; [exact H2|].
  split; [exact H3|].
  exact (factor_prices_positive 10 2 0.5 param H0 H1 H2 H3).
Defined.

(** X12.  With [alpha] in [(0, 1)] and labour fixed, more capital lowers
    the interest rate and raises the wage: for [0 < K1 < K2] the call on
    [K2] returns a strictly smaller [r] and a strictly larger [w]. *)
Theorem factor_prices_monotone_in_capital (K1 K2 L a : R) (pm : params) :
  getitem pm "alpha" = Return a -> 0 < K1 < K2 -> 0 < L -> 0 < a < 1 ->
  exists r1 w1 r2 w2,
    factor_prices K1 L pm = Return (PyFloat r1, PyFloat w1)
    /\ factor_prices K2 L pm = Return (PyFloat r2, PyFloat w2)
    /\ r2 < r1 /\ w1 < w2.
Proof.
  intros Ha [HK1 HK12] HL [Ha0 Ha1].
  assert (Hq1 : 0 < K1 / L) by now apply ratio_pos.
  assert (Hq12 : K1 / L < K2 / L).
  { unfold Rdiv. apply Rmult_lt_compat_r; auto.
    now apply Rinv_0_lt_compat. }
  do 4 eexists. split; [|split; [|split]].
  - apply (factor_prices_positive_ratio K1 L a pm Ha); lra.
  - apply (factor_prices_positive_ratio K2 L a pm Ha); lra.
  - apply Rmult_lt_compat_l; [lra|].
    replace (a - 1) with (- (1 - a)) by ring. rewrite !Rpower_Ropp.
    apply Rinv_lt_contravar.
    + apply Rmult_lt_0_compat; apply Rpower_pos.
    + apply Rlt_Rpower_l; lra.
  - apply Rmult_lt_compat_l; [lra|]. apply Rlt_Rpower_l; lra.
Qed.

Lemma factor_prices_monotone_in_capital_witness :
  getitem param "alpha" = Return 0.5 /\ 0 < 10 < 12 /\ 0 < 2 /\
  0 < 0.5 < 1 /\
  exists r1 w1 r2 w2,
    factor_prices 10 2 param = Return (PyFloat r1, PyFloat w1)
    /\ factor_prices 12 2 param = Return (PyFloat r2, PyFloat w2)
    /\ r2 < r1 /\ w1 < w2.
Proof.
  assert (H0 : getitem param "alpha" = Return 0.5) by reflexivity.
  assert (H1 : 0 < 10 < 12) by lra.
  assert (H2 : 0 < 2) by lra.
  assert (H3 : 0 < 0.5 < 1) by lra.
  split; [exact H0|]. split; [exact H1|]. split; [exact H2|].
  split; [exact H3|].
  exact (factor_prices_monotone_in_capital 10 12 2 0.5 param H0 H1 H2 H3).
Defined.

(** X13.  [cash_in_hand] composed with [factor_prices]: a household that
    holds the aggregate capital [K > 0] and supplies the aggregate labour
    [L > 0] at the prices [factor_prices] returns has output plus its
    capital in hand, [w * L + (1 + r) * K = K^alpha * L^(1-alpha) + K]. *)
Theorem cash_in_hand_at_factor_prices (K L a r w : R) (pm : params) :
  getitem pm "alpha" = Return a -> 0 < K -> 0 < L ->
  factor_prices K L pm = Return (PyFloat r, PyFloat w) ->
  cash_in_hand K L r w = production K L a + K.
Proof.
  intros Ha HK HL Hfp.
  rewrite (factor_prices_positive_ratio K L a pm Ha) in Hfp;
    [| lra | now apply ratio_pos].
  injection Hfp as Hr Hw.
  destruct (factor_incomes K L a HK HL) as [HrK HwL].
  rewrite Hr in HrK. rewrite Hw in HwL.
  unfold cash_in_hand.
  replace (w * L + (1 + r) * K) with (r * K + w * L + K) by ring.
  rewrite HrK, HwL. ring.
Qed.

Lemma cash_in_hand_at_factor_prices_witness :
  getitem param "alpha" = Return 0.5 /\ 0 < 1 /\
  cash_in_hand 1 1 0.5 0.5 = production 1 1 0.5 + 1.
Proof.
  assert (H0 : getitem param "alpha" = Return 0.5) by reflexivity.
  assert (H1 : 0 < 1) by lra.
  split; [exact H0|]. split; [exact H1|].
  assert (Hfp : factor_prices 1 1 param = Return (PyFloat 0.5, PyFloat 0.5)).
  { rewrite (factor_prices_positive_ratio 1 1 0.5 param H0); [| lra | lra].
    replace (1 / 1) with 1 by lra. rewrite !Rpower_one_base.
    repeat f_equal; lra. }
  exact (cash_in_hand_at_factor_prices 1 1 0.5 0.5 0.5 param H0 H1 H1 Hfp).
Defined.

(** * Further properties of [aggregate_kl] *)

(** A weighted sum with non-negative weights lies between the extreme
    values times the total weight. *)
Lemma dot_bounds (lo hi : R) (d s : vector) :
  nonneg d -> List.length d = List.length s ->
  Forall (fun x => lo <= x <= hi) s ->
  lo * vsum d <= dot d s <= hi * vsum d.
Proof.
  unfold nonneg. intros Hd; revert s.
  induction Hd as [|x d Hx Hd IH]; intros s Hlen Hs.
  - simpl. lra.
  - destruct Hs as [|y s Hy Hs]; [discriminate|].
    simpl in *. specialize (IH s ltac:(lia) Hs). nra.
Qed.

(** X14.  When [dist] and [states] have different lengths the product
    [dist @ states] raises and [aggregate_kl] returns nothing: the error
    is NumPy's [ValueError]. *)
Theorem aggregate_kl_length_mismatch (states dist : vector) (pm : params) :
  List.length dist <> List.length states ->
  aggregate_kl states dist pm = Raise ValueError.
Proof.
  intros Hne. unfold aggregate_kl, matmul.
  destruct (Nat.eqb_spec (List.length dist) (List.length states));
    [contradiction | reflexivity].
Qed.

Lemma aggregate_kl_length_mismatch_witness :
  List.length [0.5; 0.5] <> List.length [1; 2; 3] /\
  aggregate_kl [1; 2; 3] [0.5; 0.5] param = Raise ValueError.
Proof.
  assert (H : List.length [0.5; 0.5] <> List.length [1; 2; 3])
    by (simpl; lia).
  split; [exact H|].
  exact (aggregate_kl_length_mismatch [1; 2; 3] [0.5; 0.5] param H).
Defined.

(** X15.  For a probability distribution [dist] (non-negative weights
    that sum to one) over states that all lie in [[lo, hi]],
    [aggregate_kl] returns two aggregates inside [[lo, hi]]. *)
Theorem aggregate_kl_within_range
        (lo hi : R) (states dist : vector) (pm : params) :
  distribution dist -> List.length dist = List.length states ->
  Forall (fun x => lo <= x <= hi) states ->
  exists K L,
    aggregate_kl states dist pm = Return (K, L)
    /\ lo <= K <= hi /\ lo <= L <= hi.
Proof.
  intros [Hpos Hsum] Hlen Hs.
  pose proof (dot_bounds lo hi dist states Hpos Hlen Hs) as Hb.
  rewrite Hsum, !Rmult_1_r in Hb.
  exists (dot dist states), (dot dist states). split; [|split; exact Hb].
  unfold aggregate_kl, matmul. rewrite Hlen, Nat.eqb_refl. reflexivity.
Qed.

Lemma aggregate_kl_within_range_witness :
  distribution [0.2; 0.3; 0.5] /\
  List.length [0.2; 0.3; 0.5] = List.length [1; 2; 3] /\
  Forall (fun x => 1 <= x <= 3) [1; 2; 3] /\
  exists K L,
    aggregate_kl [1; 2; 3] [0.2; 0.3; 0.5] param = Return (K, L)
    /\ 1 <= K <= 3 /\ 1 <= L <= 3.
Proof.
  assert (H1 : distribution [0.2; 0.3; 0.5]).
  { split; [|simpl; lra]. unfold nonneg.
    repeat apply Forall_cons; auto; lra. }
  assert (H2 : List.length [0.2; 0.3; 0.5] = List.length [1; 2; 3])
    by reflexivity.
  assert (H3 : Forall (fun x => 1 <= x <= 3) [1; 2; 3])
    by (repeat apply Forall_cons; auto; lra).
  split; [exact H1|]. split; [exact H2|]. split; [exact H3|].
  exact (aggregate_kl_within_range 1 3 [1; 2; 3] [0.2; 0.3; 0.5] param
                                   H1 H2 H3).
Defined.

(** * Further properties of [solve_pfi] *)

(** X16.  No call of [solve_pfi] gets past its first statement: whatever
    the arguments, the namespace and the number of iterations allowed, it
    raises [NameError] on [state] when that name is unbound, and otherwise
    [TypeError], because [cash_in_hand] takes four arguments and is given
    three.  It never returns and never enters its loop. *)
Theorem solve_pfi_always_raises
        (fuel : nat) (G : globals) (r w : R) (pm : params) (tol : R) :
  solve_pfi fuel G r w pm tol
  = Some (Raise (match g_state G with
                 | None => NameError "state"
                 | Some _ => TypeError
                 end)).
Proof. unfold solve_pfi. destruct (g_state G); reflexivity. Qed.

(** X17.  The [while] statement of [solve_pfi], entered as the function
    enters it (with [c1] not yet assigned) and with a change above the
    tolerance, cannot complete a single pass: it raises [NameError] when
    [euler] is unbound, and when [euler] is bound and returns, it raises
    [UnboundLocalError] on [c1], which is read before its assignment. *)
Theorem pfi_loop_first_pass_raises
        (fuel : nat) (G : globals) (cash : R) (pm : params) (tol diff : R) :
  tol < diff ->
  (g_euler G = None ->
   pfi_loop (S fuel) G cash pm tol diff None
   = Some (Raise (NameError "euler")))
  /\ (forall euler c0,
         g_euler G = Some euler -> euler cash pm = Return c0 ->
         pfi_loop (S fuel) G cash pm tol diff None
         = Some (Raise (UnboundLocalError "c1"))).
Proof.
  intros Hdiff. split.
  - intros HG. simpl. destruct (Rlt_dec tol diff); [|contradiction].
    unfold pfi_body. rewrite HG. reflexivity.
  - intros euler c0 HG Hc0. simpl.
    destruct (Rlt_dec tol diff); [|contradiction].
    unfold pfi_body. rewrite HG. simpl. rewrite Hc0. reflexivity.
Qed.

Lemma pfi_loop_first_pass_raises_witness :
  let G := {| g_state := Some 0;
              g_euler := Some (fun _ _ => Return [0]);
              g_cs := Some [10] |} in
  default_tol < 1.0 /\
  pfi_loop 1 notebook_globals 0 param default_tol 1.0 None
  = Some (Raise (NameError "euler")) /\
  pfi_loop 1 G 0 param default_tol 1.0 None
  = Some (Raise (UnboundLocalError "c1")).
Proof.
  intros G.
  assert (H : default_tol < 1.0) by (unfold default_tol; lra).
  split; [exact H|]. split.
  - exact (proj1 (pfi_loop_first_pass_raises
                    0 notebook_globals 0 param default_tol 1.0 H) eq_refl).
  - exact (proj2 (pfi_loop_first_pass_raises 0 G 0 param default_tol 1.0 H)
                 (fun _ _ => Return [0]) [0] eq_refl eq_refl).
Defined.
